(** * ai-avatar-stream-mvp: dialog generation and timeline assembly

    A shallow embedding of [src/dialog_engine.py], [src/tts_engine.py] and
    the assembly loop of [src/video_engine.py], with the properties of the
    constraint pipeline, the dialog loop, the artifact names and the
    speaker introductions.

    Python [str] values are sequences of Unicode code points; they are
    modelled as lists of code points.  Calls to the language model and to
    the speech service are calls to oracles that see the requests made so
    far; list objects live in a heap so that aliasing is visible. *)

From Stdlib Require Import ZArith NArith QArith List String Ascii Bool Lia.
From Stdlib Require DecimalN DecimalFacts.
From stdpp Require Import base option list gmap sorting.

Local Open Scope N_scope.

(** ** Strings *)

Module PyStr.

Definition char := N.
Definition pystr := list char.

(** UTF-8 decoding, used only to write the source's literals readably. *)
Fixpoint utf8_decode (bs : list N) : pystr :=
  match bs with
  | [] => []
  | b0 :: r0 =>
      if b0 <? 128 then b0 :: utf8_decode r0
      else if b0 <? 224 then
        match r0 with
        | b1 :: r1 => ((b0 - 192) * 64 + (b1 - 128)) :: utf8_decode r1
        | _ => []
        end
      else if b0 <? 240 then
        match r0 with
        | b1 :: b2 :: r2 =>
            ((b0 - 224) * 4096 + (b1 - 128) * 64 + (b2 - 128)) :: utf8_decode r2
        | _ => []
        end
      else
        match r0 with
        | b1 :: b2 :: b3 :: r3 =>
            ((b0 - 240) * 262144 + (b1 - 128) * 4096 + (b2 - 128) * 64 + (b3 - 128))
              :: utf8_decode r3
        | _ => []
        end
  end.

Fixpoint bytes_of_string (s : string) : list N :=
  match s with
  | EmptyString => []
  | String a s' => N_of_ascii a :: bytes_of_string s'
  end.

Definition py (s : string) : pystr := utf8_decode (bytes_of_string s).

(** [str.isspace] on one code point, which is also what [str.strip] with
    no argument removes and what [\s] matches in a [str] pattern. *)
Definition isspace (c : char) : bool :=
  ((9 <=? c) && (c <=? 13)) || ((28 <=? c) && (c <=? 32))
  || (c =? 133) || (c =? 160) || (c =? 5760)
  || ((8192 <=? c) && (c <=? 8202))
  || (c =? 8232) || (c =? 8233) || (c =? 8239) || (c =? 8287) || (c =? 12288).

Fixpoint dropwhile (p : char -> bool) (s : pystr) : pystr :=
  match s with
  | [] => []
  | c :: s' => if p c then dropwhile p s' else s
  end.

Definition lstrip (s : pystr) : pystr := dropwhile isspace s.
Definition rstrip (s : pystr) : pystr := rev (dropwhile isspace (rev s)).
Definition strip (s : pystr) : pystr := rstrip (lstrip s).

Fixpoint startswith (s p : pystr) {struct p} : bool :=
  match p, s with
  | [], _ => true
  | c :: p', a :: s' => (a =? c) && startswith s' p'
  | _ :: _, [] => false
  end.

(** [needle in s] *)
Fixpoint contains (s needle : pystr) : bool :=
  startswith s needle ||
  match s with
  | [] => false
  | _ :: s' => contains s' needle
  end.

(** Number of positions of [s] at which [needle] occurs. *)
Fixpoint occurrences (needle s : pystr) : nat :=
  ((if startswith s needle then 1 else 0) +
   match s with
   | [] => 0
   | _ :: s' => occurrences needle s'
   end)%nat.

(** [s.replace(ch, "")] for a one-character [ch]. *)
Definition remove_char (ch : char) (s : pystr) : pystr :=
  List.filter (fun c => negb (c =? ch)) s.

(** Comparison of [str] values: lexicographic on code points. *)
Fixpoint str_compare (a b : pystr) : comparison :=
  match a, b with
  | [], [] => Eq
  | [], _ :: _ => Lt
  | _ :: _, [] => Gt
  | x :: a', y :: b' =>
      match x ?= y with
      | Eq => str_compare a' b'
      | o => o
      end
  end.

Definition str_lt (a b : pystr) : Prop := str_compare a b = Lt.

(** Truth value of a [str]: the empty string is false. *)
Definition truthy (s : pystr) : bool :=
  match s with [] => false | _ => true end.

Definition str_eqb (a b : pystr) : bool := bool_decide (a = b).

End PyStr.
Export PyStr.

(** ** The Unicode tables of the interpreter

    [str.lower] and case-insensitive matching of a pattern literal depend
    on the interpreter's Unicode database; the development is parametric in
    them. *)
Class UnicodeTables := {
  (** [s.lower()] *)
  str_lower : pystr -> pystr;
  (** under [re.IGNORECASE], does subject code point [a] match the pattern
      literal [c]? *)
  ignorecase_match : char -> char -> bool
}.

(** The tables restricted to Basic Latin and the Cyrillic block
    U+0400..U+045F; other code points are their own lower case. *)
Definition basic_lower_char (c : char) : char :=
  if (65 <=? c) && (c <=? 90) then c + 32
  else if (1024 <=? c) && (c <=? 1039) then c + 80
  else if (1040 <=? c) && (c <=? 1071) then c + 32
  else c.

Definition basic_tables : UnicodeTables := {|
  str_lower := List.map basic_lower_char;
  ignorecase_match := fun a c => basic_lower_char a =? basic_lower_char c
|}.

(** ** Regular expressions, as far as [SPEAKER_PREFIX_RE] needs them *)

Module Re.

Inductive regex :=
| Eps
| Lit (c : char)
| SpaceStar                     (* \s* *)
| Opt (r : regex)               (* (?:r)? *)
| Alt (r1 r2 : regex)           (* r1|r2 *)
| Seq (r1 r2 : regex).

Definition Str (s : pystr) : regex := fold_right (fun c r => Seq (Lit c) r) Eps s.

Section Matcher.
Context {U : UnicodeTables}.
Context {A : Type}.

(** Greedy [\s*] with backtracking: the longest run first. *)
Fixpoint star_space (s : pystr) (k : pystr -> option A) : option A :=
  match s with
  | a :: s' =>
      if isspace a then
        match star_space s' k with
        | Some x => Some x
        | None => k s
        end
      else k s
  | [] => k []
  end.

(** Backtracking matcher in continuation-passing style, with
    [re.IGNORECASE]: [k] receives what is left of the subject. *)
Fixpoint rmatch (r : regex) (s : pystr) (k : pystr -> option A) : option A :=
  match r with
  | Eps => k s
  | Lit c =>
      match s with
      | a :: s' => if ignorecase_match a c then k s' else None
      | [] => None
      end
  | SpaceStar => star_space s k
  | Opt r1 =>
      match rmatch r1 s k with
      | Some x => Some x
      | None => k s
      end
  | Alt r1 r2 =>
      match rmatch r1 s k with
      | Some x => Some x
      | None => rmatch r2 s k
      end
  | Seq r1 r2 => rmatch r1 s (fun s' => rmatch r2 s' k)
  end.

End Matcher.

(** [pattern.match(s)] for a pattern that starts with [^]: the rest of the
    subject after the match. *)
Definition match_prefix {U : UnicodeTables} (r : regex) (s : pystr) : option pystr :=
  rmatch r s Some.

(** [pattern.sub("", s)] for a pattern that starts with [^] (without
    [re.MULTILINE]) and cannot match the empty string: only a match at
    position 0 exists, and it is deleted. *)
Definition sub_empty {U : UnicodeTables} (r : regex) (s : pystr) : pystr :=
  match match_prefix r s with
  | Some rest => rest
  | None => s
  end.

End Re.

(** ** dialog_engine.py: constants and text transforms *)

Definition is_latin (c : char) : bool :=
  ((65 <=? c) && (c <=? 90)) || ((97 <=? c) && (c <=? 122)).

(** [LATIN_RE.search(text)] is not [None] *)
Definition LATIN_RE_search (text : pystr) : bool := existsb is_latin text.

Definition IRINA_NAME : pystr := Eval vm_compute in py "Д-р Ирина (учёный)".
Definition IRINA_FIRST_PHRASE : pystr :=
  Eval vm_compute in py "Давай начнём с самого простого.".
Definition IRINA_PREFACE : pystr := Eval vm_compute in py "Добрый день. Да, спасибо.".

Definition SP : pystr := [32].

Definition SPEAKER_PREFIX_RE : Re.regex :=
  let seq := fold_right Re.Seq Re.Eps in
  seq [ Re.SpaceStar;
        Re.Opt (seq [Re.Str (py "Д"); Re.Opt (Re.Str (py "-")); Re.Str (py "р"); Re.SpaceStar]);
        Re.Alt (Re.Str (py "Ирина")) (Re.Str (py "Алексей"));
        Re.SpaceStar;
        Re.Str (py "(");
        Re.Alt (Re.Str (py "учёный")) (Re.Str (py "скептик"));
        Re.Str (py ")");
        Re.SpaceStar;
        Re.Str (py ":");
        Re.SpaceStar ].

Section TextTransforms.
Context {U : UnicodeTables}.

Definition _strip_leading_speaker_prefix (reply : pystr) : pystr :=
  let cleaned := lstrip reply in
  let cleaned := strip (Re.sub_empty SPEAKER_PREFIX_RE cleaned) in
  cleaned.

End TextTransforms.

Definition _enforce_irina_first_phrase (reply : pystr) : pystr :=
  let cleaned := lstrip reply in
  if startswith cleaned IRINA_FIRST_PHRASE then cleaned
  else strip (IRINA_FIRST_PHRASE ++ SP ++ cleaned).

Definition _add_irina_preface_if_first_turn (reply : pystr) : pystr :=
  let cleaned := lstrip reply in
  if negb (startswith cleaned IRINA_FIRST_PHRASE) then cleaned
  else if startswith cleaned (IRINA_PREFACE ++ SP ++ IRINA_FIRST_PHRASE) then cleaned
  else strip (IRINA_PREFACE ++ SP ++ cleaned).

(** ** Effects: environment, heap of list objects, external services *)

Inductive Exn :=
| RuntimeError (msg : pystr)
| IndexError
| ServiceError (msg : pystr).     (* raised inside a client library *)

Inductive Result (A : Type) :=
| Ok (a : A)
| Raise (e : Exn).
Arguments Ok {A} a.
Arguments Raise {A} e.

Record Message := { role : pystr; content : pystr }.

Record ChatRequest := {
  chat_model : pystr;
  chat_messages : list Message;
  chat_max_tokens : Z;
  chat_temperature : Q
}.

Record SpeechRequest := {
  speech_model : pystr;
  speech_voice : pystr;
  speech_input : pystr;
  speech_response_format : pystr;
  speech_file : pystr             (* where the response is streamed to *)
}.

Abbreviation Turn := (pystr * pystr)%type.
Abbreviation History := (list Turn).
Definition loc := nat.

Record World := {
  environ : gmap pystr pystr;          (* os.environ *)
  heap : list History;                 (* the list objects, by address *)
  chat_log : list ChatRequest;         (* completion requests issued *)
  speech_log : list SpeechRequest;     (* speech requests issued *)
  files : list pystr                   (* audio files written *)
}.

Definition M (A : Type) : Type := World -> Result A * World.

#[export] Instance M_ret : MRet M := fun A a w => (Ok a, w).
#[export] Instance M_bind : MBind M := fun A B f m w =>
  match m w with
  | (Ok a, w') => f a w'
  | (Raise e, w') => (Raise e, w')
  end.

Definition raise {A} (e : Exn) : M A := fun w => (Raise e, w).

(** [try: m except Exception as e: handler e] *)
Definition try_except {A} (m : M A) (handler : Exn -> M A) : M A := fun w =>
  match m w with
  | (Ok a, w') => (Ok a, w')
  | (Raise e, w') => handler e w'
  end.

Definition getenv (name : pystr) : M (option pystr) := fun w =>
  (Ok (environ w !! name), w).

(** [[]] and [list(xs)]: a new list object. *)
Definition list_new (xs : History) : M loc := fun w =>
  (Ok (length (heap w)),
   {| environ := environ w; heap := heap w ++ [xs]; chat_log := chat_log w;
      speech_log := speech_log w; files := files w |}).

Definition list_read (l : loc) : M History := fun w =>
  (Ok (default [] (heap w !! l)), w).

Definition list_copy (l : loc) : M loc :=
  xs ← list_read l; list_new xs.

(** [l.append(x)]: the object at [l] is changed in place. *)
Definition list_append (l : loc) (x : Turn) : M unit := fun w =>
  (Ok tt,
   {| environ := environ w;
      heap := <[l := default [] (heap w !! l) ++ [x]]> (heap w);
      chat_log := chat_log w; speech_log := speech_log w; files := files w |}).

Definition OPENAI_API_KEY : pystr := Eval vm_compute in py "OPENAI_API_KEY".
Definition NL : pystr := [10].

Definition MISSING_KEY_MESSAGE : pystr :=
  py "Не найден OPENAI_API_KEY. Создайте файл .env в корне проекта и добавьте строку "
  ++ py "OPENAI_API_KEY=ваш_ключ (или задайте переменную окружения OPENAI_API_KEY).".

(** [bool(os.getenv(...))] *)
Definition opt_truthy (o : option pystr) : bool :=
  match o with
  | Some s => truthy s
  | None => false
  end.

Section Services.
Context {U : UnicodeTables}.

(** The completion service: what it answers to a request, given the
    requests it has served before.  [inl e]: the call raises [e];
    [inr c]: [resp.choices[0].message.content] is [c]. *)
Variable chat_completions_create : list ChatRequest -> ChatRequest -> Exn + option pystr.

(** The speech service together with the streaming of its answer into the
    file: [Some e] when the call raises [e]. *)
Variable audio_speech_create : list SpeechRequest -> SpeechRequest -> option Exn.

(** [str(AUDIO_DIR)] *)
Variable AUDIO_DIR : pystr.

Definition chat_create (req : ChatRequest) : M (option pystr) := fun w =>
  let w' := {| environ := environ w; heap := heap w; chat_log := chat_log w ++ [req];
               speech_log := speech_log w; files := files w |} in
  match chat_completions_create (chat_log w) req with
  | inl e => (Raise e, w')
  | inr c => (Ok c, w')
  end.

Definition speech_create (req : SpeechRequest) : M unit := fun w =>
  match audio_speech_create (speech_log w) req with
  | Some e =>
      (Raise e,
       {| environ := environ w; heap := heap w; chat_log := chat_log w;
          speech_log := speech_log w ++ [req]; files := files w |})
  | None =>
      (Ok tt,
       {| environ := environ w; heap := heap w; chat_log := chat_log w;
          speech_log := speech_log w ++ [req];
          files := files w ++ [speech_file req] |})
  end.

Record Agent := { name : pystr; system_prompt : pystr }.

Definition GPT_4O_MINI : pystr := Eval vm_compute in py "gpt-4o-mini".

Definition _history_to_messages (history : History) : list Message :=
  List.map (fun '(speaker, text) =>
              {| role := py "user"; content := strip (speaker ++ py ": " ++ text) |})
           history.

Definition or_empty (c : option pystr) : pystr := default [] c.

(** The request of [_rewrite_without_latin] (lines 79-102). *)
Definition rewrite_request (text : pystr) (agent : Agent) : ChatRequest :=
  let messages :=
    [ {| role := py "system";
         content :=
           system_prompt agent ++ NL ++ NL
           ++ py "ЖЁСТКОЕ ПРАВИЛО: в ответе не должно быть НИ ОДНОЙ латинской буквы (A–Z, a–z). "
           ++ py "Никаких английских слов, вставок, транслитерации. Только кириллица, цифры и знаки." |};
      {| role := py "user";
         content :=
           py "Перепиши текст ниже так, чтобы смысл сохранился, но в нём не было ни одной латинской буквы."
           ++ NL ++ NL ++ py "Текст:" ++ NL ++ text |} ] in
  {| chat_model := GPT_4O_MINI; chat_messages := messages;
     chat_max_tokens := 260; chat_temperature := 3 # 10 |}.

Definition _rewrite_without_latin (text : pystr) (agent : Agent) : M pystr :=
  if negb (LATIN_RE_search text) then mret text
  else
    resp ← chat_create (rewrite_request text agent);
    let rewritten := strip (or_empty resp) in
    mret (if negb (LATIN_RE_search rewritten) then rewritten else text).

Definition FIRST_TURN_INSTRUCTION : pystr :=
  py "Сделай ПЕРВУЮ реплику диалога по указанной теме." ++ NL
  ++ py "Это самое начало: до этого никто ничего не говорил." ++ NL
  ++ py "Реплика ОБЯЗАТЕЛЬНО начинается ровно с фразы: «" ++ IRINA_FIRST_PHRASE ++ py "»." ++ NL
  ++ py "Дальше — спокойное, уверенное введение в тему (2–4 предложения), без ощущения, что спор уже идёт." ++ NL
  ++ py "Ирина — эксперт: она объясняет и ведёт разговор." ++ NL
  ++ py "Не используй английские слова, вставки и латиницу." ++ NL
  ++ py "Не перечисляй правила и не используй разметку.".

Definition NEXT_TURN_INSTRUCTION : pystr :=
  py "Продолжи диалог следующей репликой от лица персонажа." ++ NL
  ++ py "Ирина — эксперт, объясняет и ведёт разговор." ++ NL
  ++ py "Алексей — собеседник, который задаёт неудобные, уточняющие вопросы." ++ NL
  ++ py "Не используй английские слова, вставки и латиницу." ++ NL
  ++ py "Не перечисляй правила и не используй разметку.".

Definition COMMON_RULES : pystr :=
  py "Общие правила:" ++ NL
  ++ py "- Отвечай строго на русском." ++ NL
  ++ py "- 2–4 предложения." ++ NL
  ++ py "- Научно, но понятно, без сухого академизма." ++ NL
  ++ py "- ЖЁСТКИЙ ЗАПРЕТ: никаких английских слов, вставок, транслитерации, латиницы." ++ NL
  ++ py "- Не пиши своё имя и должность в начале реплики, говори просто от первого лица." ++ NL
  ++ py "- Вопросы не должны занимать весь объём реплики: сначала мысль/позиция, затем (если уместно) 1 прицельный вопрос." ++ NL
  ++ py "- Ирина чаще утверждает и объясняет; Алексей чаще задаёт вопросы и сомневается." ++ NL.

(** The part of [generate_reply] after the completion call and before the
    history is extended (lines 204-214): the constraint pipeline. *)
Definition finalize_reply (agent : Agent) (is_first_turn : bool) (resp : option pystr)
  : M pystr :=
  let reply_text := strip (or_empty resp) in
  let reply_text := _strip_leading_speaker_prefix reply_text in
  let reply_text :=
    if is_first_turn && str_eqb (name agent) IRINA_NAME
    then _add_irina_preface_if_first_turn (_enforce_irina_first_phrase reply_text)
    else reply_text in
  _rewrite_without_latin reply_text agent.

(** The request of [generate_reply] (lines 154-201), from the history read
    at entry. *)
Definition reply_request (agent : Agent) (hist : History) (topic : option pystr)
    (max_tokens : Z) : ChatRequest :=
  let is_first_turn := negb (match hist with [] => false | _ => true end) in
  let effective_topic := if is_first_turn then topic else None in
  let topic_line :=
    match effective_topic with
    | Some t => if truthy t then py "Тема: " ++ t ++ py "." else []
    | None => []
    end in
  let user_content :=
    if is_first_turn && str_eqb (name agent) IRINA_NAME
    then FIRST_TURN_INSTRUCTION else NEXT_TURN_INSTRUCTION in
  let messages :=
    [ {| role := py "system";
         content := strip (system_prompt agent ++ NL ++ NL ++ COMMON_RULES ++ topic_line) |} ]
    ++ _history_to_messages hist
    ++ [ {| role := py "user"; content := user_content |} ] in
  {| chat_model := GPT_4O_MINI; chat_messages := messages;
     chat_max_tokens := max_tokens; chat_temperature := 7 # 10 |}.

Definition generate_reply (agent : Agent) (history : loc) (topic : option pystr)
    (max_tokens : Z) : M (pystr * loc) :=
  key ← getenv OPENAI_API_KEY;
  if negb (opt_truthy key) then raise (RuntimeError MISSING_KEY_MESSAGE)
  else
    hist ← list_read history;
    let is_first_turn := negb (match hist with [] => false | _ => true end) in
    resp ← chat_create (reply_request agent hist topic max_tokens);
    reply_text ← finalize_reply agent is_first_turn resp;
    updated_history ← list_copy history;
    _ ← list_append updated_history (name agent, reply_text);
    mret (reply_text, updated_history).

(** ** tts_engine.py *)

Definition _simplify_speaker_name (speaker : pystr) : pystr :=
  let simplified := str_lower speaker in
  let simplified :=
    fold_left (fun s ch => remove_char ch s)
              (py " " ++ py "(" ++ py ")" ++ py "[" ++ py "]" ++ py "{" ++ py "}")
              simplified in
  if truthy simplified then simplified else py "speaker".

Fixpoint uint_chars (d : Decimal.uint) : pystr :=
  match d with
  | Decimal.Nil => []
  | Decimal.D0 d => 48 :: uint_chars d
  | Decimal.D1 d => 49 :: uint_chars d
  | Decimal.D2 d => 50 :: uint_chars d
  | Decimal.D3 d => 51 :: uint_chars d
  | Decimal.D4 d => 52 :: uint_chars d
  | Decimal.D5 d => 53 :: uint_chars d
  | Decimal.D6 d => 54 :: uint_chars d
  | Decimal.D7 d => 55 :: uint_chars d
  | Decimal.D8 d => 56 :: uint_chars d
  | Decimal.D9 d => 57 :: uint_chars d
  end.

(** [str(n)] for [n >= 0] *)
Definition decimal (n : N) : pystr := uint_chars (N.to_uint n).

Definition zfill (width : nat) (s : pystr) : pystr :=
  repeat 48 (width - length s)%nat ++ s.

(** [f"{n:03d}"]: the sign counts in the width. *)
Definition format_03d (n : Z) : pystr :=
  if (n <? 0)%Z then py "-" ++ zfill 2 (decimal (Z.to_N (- n)))
  else zfill 3 (decimal (Z.to_N n)).

(** [filename] of [synthesize_speech] (lines 92-93) *)
Definition speech_filename (speaker : pystr) (turn_index : Z) : pystr :=
  let speaker_simplified := _simplify_speaker_name speaker in
  format_03d turn_index ++ py "_" ++ speaker_simplified ++ py ".mp3".

Definition path_join (dir file : pystr) : pystr := dir ++ py "/" ++ file.

Definition GPT_4O_MINI_TTS : pystr := Eval vm_compute in py "gpt-4o-mini-tts".

(** [AUDIO_DIR.mkdir(parents=True, exist_ok=True)] leaves the modelled
    state as it is: directories are not part of it. *)
Definition synthesize_speech (text speaker : pystr) (turn_index : Z) (voice : pystr)
  : M pystr :=
  key ← getenv OPENAI_API_KEY;
  if negb (opt_truthy key) then raise (RuntimeError MISSING_KEY_MESSAGE)
  else
    let filename := speech_filename speaker turn_index in
    let output_path := path_join AUDIO_DIR filename in
    _ ← speech_create {| speech_model := GPT_4O_MINI_TTS; speech_voice := voice;
                         speech_input := text; speech_response_format := py "mp3";
                         speech_file := output_path |};
    mret output_path.

(** ** dialog_engine.py: the dialog loop *)

Definition ALEXEY_NAME : pystr := Eval vm_compute in py "Д-р Алексей (скептик)".

Definition agent1 : Agent := {|
  name := IRINA_NAME;
  system_prompt :=
    py "Ты — учёная-исследовательница и научный популяризатор. Пиши спокойно, уверенно и чётко, "
    ++ py "как умная собеседница в подкасте. Объясняй сложные вещи человеческим языком и простыми примерами, "
    ++ py "не скатываясь в сюсюканье и не приукрашивая факты. "
    ++ py "Говори от первого лица в женском роде (я согласна, я считаю, я хотела бы, мне кажется) "
    ++ py "и избегай мужских форм вроде «я согласен». "
    ++ py "Твоя роль — эксперт: ты ведёшь разговор и даёшь объяснения и выводы. "
    ++ py "Вопросы используй редко и только по делу; не перекладывай экспертность на собеседника. "
    ++ py "Юмор лёгкий и интеллигентный, дозировано. "
    ++ py "ЖЁСТКО: никаких английских слов, латиницы, транслитерации."
|}.

Definition agent2 : Agent := {|
  name := ALEXEY_NAME;
  system_prompt :=
    py "Ты — скептичный учёный и собеседник, который задаёт неудобные, но уместные вопросы. "
    ++ py "Говори от первого лица в мужском роде и избегай женских форм. "
    ++ py "Твоя роль — уточнять и проверять: спрашивай про данные, метод, ограничения и альтернативные объяснения. "
    ++ py "Структура реплики: 1–2 предложения сомнения/уточнения + 1–2 прицельных вопроса. "
    ++ py "Не уходи в длинные монологи. "
    ++ py "Юмор лёгкий, чуть ехидный, но без грубости. "
    ++ py "ЖЁСТКО: никаких английских слов, латиницы, транслитерации."
|}.

(** [range(n)] *)
Definition range (n : Z) : list Z := List.map Z.of_nat (seq 0 (Z.to_nat n)).

(** [for x in xs: s = body x s] *)
Fixpoint for_each {A S : Type} (xs : list A) (body : A -> S -> M S) (s : S) : M S :=
  match xs with
  | [] => mret s
  | x :: xs' => s' ← body x s; for_each xs' body s'
  end.

Definition agents : list Agent := [agent1; agent2].

Definition voice_map : gmap pystr pystr :=
  <[IRINA_NAME := py "nova"]> (<[ALEXEY_NAME := py "alloy"]> ∅).

(** One iteration of the loop of [run_dialog]; console output is not
    modelled. *)
Definition run_dialog_body (topic : pystr) (i : Z) (history : loc) : M loc :=
  match agents !! Z.to_nat (i mod 2) with
  | None => raise IndexError
  | Some agent =>
      '(reply, history) ← generate_reply agent history (Some topic) 350;
      _ ← try_except
            (let voice := default (py "alloy") (voice_map !! name agent) in
             _ ← synthesize_speech reply (name agent) (i + 1) voice;
             mret tt)
            (fun e => mret tt);
      mret history
  end.

Definition run_dialog (topic : pystr) (turns : Z) : M loc :=
  history ← list_new [];
  for_each (range turns) (run_dialog_body topic) history.

End Services.

(** ** video_engine.py: speaker detection and the assembly loop *)

Section Detect.
Context {U : UnicodeTables}.

Definition detect_speaker_from_filename (filename : pystr) : pystr :=
  let lower := str_lower filename in
  if contains lower (py "ирина") then py "irina"
  else if contains lower (py "алексей") then py "alexey"
  else py "unknown".

End Detect.

Inductive Visual :=
| ColorBackground
| ImageOnBackground (image_path : pystr).

(** Which function made a clip, with its arguments. *)
Inductive ClipOrigin :=
| topic_intro (topic : pystr)
| speaker_intro (speaker_key : pystr)
| avatar_clip (image_path audio_file : pystr).

Record Clip := {
  origin : ClipOrigin;
  visual : Visual;
  audio : pystr;
  duration : Q
}.

Inductive LoopExit := Finished | Returned.

Section Assembly.
Context {U : UnicodeTables}.

Variable audio_speech_create : list SpeechRequest -> SpeechRequest -> option Exn.

(** [AudioFileClip(path).duration], or the exception raised on opening *)
Variable AudioFileClip : World -> pystr -> Exn + Q.
(** [ImageClip(path)]: [Some e] when loading raises [e] *)
Variable ImageClip : World -> pystr -> option Exn.
(** [Path.exists] *)
Variable path_exists : World -> pystr -> bool.

Variables AUDIO_DIR AVATARS_DIR TMP_DIR ASSETS_DIR : pystr.

Definition NEUTRAL_VOICE : pystr := Eval vm_compute in py "onyx".
Definition TTS_MODEL : pystr := Eval vm_compute in py "gpt-4o-mini-tts".

Definition _tts_to_file (text out_path voice : pystr) : M pystr :=
  key ← getenv OPENAI_API_KEY;
  if negb (opt_truthy key) then raise (RuntimeError MISSING_KEY_MESSAGE)
  else
    _ ← speech_create audio_speech_create
          {| speech_model := TTS_MODEL; speech_voice := voice; speech_input := text;
             speech_response_format := py "mp3"; speech_file := out_path |};
    mret out_path.

Definition open_audio (path : pystr) : M Q := fun w =>
  match AudioFileClip w path with
  | inl e => (Raise e, w)
  | inr d => (Ok d, w)
  end.

Definition _fit_image_on_bg (image_path : pystr) (duration : Q) : M Visual := fun w =>
  match ImageClip w image_path with
  | Some e => (Raise e, w)
  | None => (Ok (ImageOnBackground image_path), w)
  end.

Definition _make_cover_bg (duration : Q) : M Visual :=
  let cover_path := path_join ASSETS_DIR (py "cover.png") in
  fun w =>
    if negb (path_exists w cover_path) then (Ok ColorBackground, w)
    else _fit_image_on_bg cover_path duration w.

Definition make_topic_intro_clip (topic : pystr) : M Clip :=
  let text := py "Сегодня мы обсуждаем научную тему. " ++ py "Тема выпуска: " ++ topic in
  audio_path ← _tts_to_file text (path_join TMP_DIR (py "000_topic_intro.mp3")) NEUTRAL_VOICE;
  duration ← open_audio audio_path;
  bg ← _make_cover_bg duration;
  mret {| origin := topic_intro topic; visual := bg; audio := audio_path;
          duration := duration |}.

Definition make_speaker_intro_clip (speaker_key avatar_path : pystr) : M Clip :=
  let '(text, fname) :=
    if str_eqb speaker_key (py "irina") then
      (py "Ирина — учёный и исследователь. Она поможет разобраться в теме.",
       py "010_intro_irina.mp3")
    else if str_eqb speaker_key (py "alexey") then
      (py "Алексей — собеседник, который задаёт неудобные вопросы и проверяет аргументы.",
       py "011_intro_alexey.mp3")
    else (py "Участник диалога.", py "012_intro_unknown.mp3") in
  audio_path ← _tts_to_file text (path_join TMP_DIR fname) NEUTRAL_VOICE;
  duration ← open_audio audio_path;
  bg ← _make_cover_bg duration;
  mret {| origin := speaker_intro speaker_key; visual := bg; audio := audio_path;
          duration := duration |}.

Definition make_avatar_clip (image_path audio_file : pystr) : M Clip :=
  let audio_path := path_join AUDIO_DIR audio_file in
  duration ← open_audio audio_path;
  clip ← _fit_image_on_bg image_path duration;
  mret {| origin := avatar_clip image_path audio_file; visual := clip;
          audio := audio_path; duration := duration |}.

Definition avatar_map : gmap pystr pystr :=
  <[py "irina" := path_join AVATARS_DIR (py "irina.jpg")]>
    (<[py "alexey" := path_join AVATARS_DIR (py "alexey.jpg")]> ∅).

Definition introduced_init : gmap pystr bool :=
  <[py "irina" := false]> (<[py "alexey" := false]> ∅).

(** [try: x = m except Exception: ...]: [None] when [m] raised. *)
Definition attempt {A} (m : M A) : M (option A) :=
  try_except (a ← m; mret (Some a)) (fun _ => mret None).

(** The loop of [main] (lines 254-294) over the audio file names, with the
    clips and the introductions made so far.  [Returned]: [main] returned
    from inside the loop. *)
Fixpoint main_loop (audio_files : list pystr) (clips : list Clip)
    (introduced : gmap pystr bool) : M (LoopExit * list Clip) :=
  match audio_files with
  | [] => mret (Finished, clips)
  | audio_file :: rest =>
      let speaker_key := detect_speaker_from_filename audio_file in
      match avatar_map !! speaker_key with
      | None => main_loop rest clips introduced
      | Some avatar_path =>
          probe ← attempt (open_audio (path_join AUDIO_DIR audio_file));
          match probe with
          | None => main_loop rest clips introduced
          | Some _ =>
              let add_turn clips introduced :=
                made ← attempt (make_avatar_clip avatar_path audio_file);
                match made with
                | Some clip => main_loop rest (clips ++ [clip]) introduced
                | None => main_loop rest clips introduced
                end in
              if bool_decide (introduced !! speaker_key = Some false) then
                intro ← attempt (make_speaker_intro_clip speaker_key avatar_path);
                match intro with
                | Some intro_clip =>
                    add_turn (clips ++ [intro_clip]) (<[speaker_key := true]> introduced)
                | None => mret (Returned, clips)
                end
              else add_turn clips introduced
          end
      end
  end.

(** [main] from the creation of [clips] (line 241) to the end of the
    loop. *)
Definition make_clips (topic : pystr) (audio_files : list pystr)
  : M (LoopExit * list Clip) :=
  intro ← attempt (make_topic_intro_clip topic);
  match intro with
  | None => mret (Returned, [])
  | Some clip => main_loop audio_files [clip] introduced_init
  end.

(** [main] from line 222 to the end of the loop, for the [audio_files]
    selected by lines 215-220: the clips handed to the concatenation, or
    those made when [main] returned early.  [main] returns with no clip
    when no audio file is selected (lines 222-224) and when the image of
    an avatar does not exist (lines 236-239). *)
Definition main_clips (topic : pystr) (audio_files : list pystr)
  : M (LoopExit * list Clip) := fun w =>
  if negb (match audio_files with [] => false | _ => true end)
  then (Ok (Returned, []), w)
  else if negb (forallb (fun kp => path_exists w (snd kp)) (map_to_list avatar_map))
  then (Ok (Returned, []), w)
  else make_clips topic audio_files w.

End Assembly.

(** ** _load_dotenv_if_present (the same loop in all four modules) *)

(** [s.strip(chars)] *)
Definition strip_chars (chars s : pystr) : pystr :=
  let drop := dropwhile (fun c => existsb (N.eqb c) chars) in
  rev (drop (rev (drop s))).

(** [s.split(sep, 1)] for a one-character [sep] that occurs in [s]: what
    is before and what is after its first occurrence. *)
Fixpoint split_first (sep : char) (s : pystr) : pystr * pystr :=
  match s with
  | [] => ([], [])
  | c :: s' =>
      if c =? sep then ([], s')
      else let '(a, b) := split_first sep s' in (c :: a, b)
  end.

(** The double quote. *)
Definition DQUOTE : pystr := [34].

(** [os.environ[key] = value] raises [ValueError] when the name or the
    value holds a null character. *)
Definition putenv_accepts (s : pystr) : bool := negb (existsb (N.eqb 0) s).

(** How the loader ends: normally, or with the [ValueError] of an
    assignment, which the loader does not catch; either way with the
    environment as it is by then. *)
Inductive DotenvResult :=
| Loaded (environ : gmap pystr pystr)
| ValueError (environ : gmap pystr pystr).

(** The body of the loop (lines 28-35 of dialog_engine.py) on one raw
    line. *)
Definition dotenv_line (raw_line : pystr) (environ : gmap pystr pystr) : DotenvResult :=
  let line := strip raw_line in
  if negb (truthy line) || startswith line (py "#") || negb (contains line (py "="))
  then Loaded environ
  else
    let '(key, value) := split_first 61 line in
    let key := strip key in
    let value := strip_chars (py "'") (strip_chars DQUOTE (strip value)) in
    if truthy key && bool_decide (environ !! key = None) then
      if putenv_accepts key && putenv_accepts value
      then Loaded (<[key := value]> environ)
      else ValueError environ
    else Loaded environ.

Fixpoint dotenv_lines (lines : list pystr) (environ : gmap pystr pystr) : DotenvResult :=
  match lines with
  | [] => Loaded environ
  | raw_line :: rest =>
      match dotenv_line raw_line environ with
      | Loaded environ' => dotenv_lines rest environ'
      | ValueError environ' => ValueError environ'
      end
  end.

(** [file]: [None] when the path does not exist or cannot be opened,
    otherwise the lines read, as the UTF-8 decoder yields them, up to the
    end of the file or to the [OSError] that ends the reading. *)
Definition _load_dotenv_if_present (file : option (list pystr))
    (environ : gmap pystr pystr) : DotenvResult :=
  match file with
  | None => Loaded environ
  | Some lines => dotenv_lines lines environ
  end.

Definition dotenv_environ (r : DotenvResult) : gmap pystr pystr :=
  match r with
  | Loaded e => e
  | ValueError e => e
  end.

(** ** video_engine.py: the selection of the audio files (lines 215-220) *)

(** [a <= b] on [str] values. *)
Definition str_le (a b : pystr) : Prop := str_compare a b <> Gt.

#[export] Instance str_le_dec : RelDecision str_le.
Proof.
  intros a b. unfold str_le.
  destruct (str_compare a b); [left|left|right]; congruence.
Defined.

(** [sorted(names)], and [sorted(paths)] for paths of one directory, which
    compare as their names do: the ordered list of the same elements.  Two
    names that compare equal are the same name, so that list does not
    depend on the sorting algorithm. *)
Definition sorted (names : list pystr) : list pystr := merge_sort str_le names.

(** [s.isdigit()], given which code points are digits. *)
Definition str_isdigit (char_isdigit : char -> bool) (s : pystr) : bool :=
  truthy s && forallb char_isdigit s.

(** [audio_files] after line 220, from the names the glob yields. *)
Definition select_audio_files (char_isdigit : char -> bool) (MAX_AUDIO_FILES : Z)
    (globbed : list pystr) : list pystr :=
  let audio_files := sorted globbed in
  let audio_files :=
    List.filter (fun name => str_isdigit char_isdigit (take 3 name)) audio_files in
  let audio_files := sorted audio_files in
  if negb (MAX_AUDIO_FILES =? 0)%Z && (0 <? MAX_AUDIO_FILES)%Z
  then take (Z.to_nat MAX_AUDIO_FILES) audio_files
  else audio_files.

(** ** Auxiliary definitions for the statements *)

(** A text that neither starts nor ends with white space. *)
Definition solid (a : pystr) : bool :=
  negb (isspace (hd 32 a)) && negb (isspace (List.last a 32)).

(** The preface, a space and the opening phrase, as line 137 writes it. *)
Definition PREFACED_OPENING : pystr := IRINA_PREFACE ++ SP ++ IRINA_FIRST_PHRASE.

(** The text the first turn of the expert has before sanitization
    (lines 204-212). *)
Definition first_turn_text {U : UnicodeTables} (resp : option pystr) : pystr :=
  _add_irina_preface_if_first_turn
    (_enforce_irina_first_phrase
       (_strip_leading_speaker_prefix (strip (or_empty resp)))).

Definition with_chat_log (w : World) (log : list ChatRequest) : World :=
  {| environ := environ w; heap := heap w; chat_log := log;
     speech_log := speech_log w; files := files w |}.

Definition with_heap (w : World) (h : list History) : World :=
  {| environ := environ w; heap := h; chat_log := chat_log w;
     speech_log := speech_log w; files := files w |}.

(** [bool(os.getenv("OPENAI_API_KEY"))] in a world. *)
Definition credential (w : World) : bool := opt_truthy (environ w !! OPENAI_API_KEY).

(** The speaker of the turn with 0-based position [k]. *)
Definition speaker_of_turn (k : nat) : pystr :=
  if Nat.even k then IRINA_NAME else ALEXEY_NAME.

(** The speakers of a history alternate, the expert first. *)
Definition alternates (hist : History) : Prop :=
  forall (k : nat) spk text, hist !! k = Some (spk, text) -> spk = speaker_of_turn k.

(** Two worlds with the same environment, heap and completion log: they
    differ at most in what speech synthesis did. *)
Definition same_dialog_state (w1 w2 : World) : Prop :=
  environ w1 = environ w2 /\ heap w1 = heap w2 /\ chat_log w1 = chat_log w2.

(** A computation whose result and dialog state depend on the dialog state
    only. *)
Definition respects {A} (m : M A) : Prop :=
  forall w1 w2, same_dialog_state w1 w2 ->
    fst (m w1) = fst (m w2) /\ same_dialog_state (snd (m w1)) (snd (m w2)).

(** The characters [_simplify_speaker_name] removes. *)
Definition SLUG_REMOVED : pystr :=
  Eval vm_compute in py " " ++ py "(" ++ py ")" ++ py "[" ++ py "]" ++ py "{" ++ py "}".

Definition slug_keeps (c : char) : bool := negb (existsb (fun ch => c =? ch) SLUG_REMOVED).

(** The three decimal digits of a number below 1000, as characters. *)
Definition three_digits (n : N) : pystr :=
  [48 + n / 100; 48 + (n / 10) mod 10; 48 + n mod 10].

(** A clip is the introduction of the speaker identity [k]. *)
Definition is_intro_of (k : pystr) (c : Clip) : Prop := origin c = speaker_intro k.

(** A clip is a turn clip of the speaker identity [k]: it was made for an
    audio file that [detect_speaker_from_filename] gives to [k]. *)
Definition is_turn_of {U : UnicodeTables} (k : pystr) (c : Clip) : Prop :=
  exists image audio_file,
    origin c = avatar_clip image audio_file
    /\ detect_speaker_from_filename audio_file = k.

(** Every introduction is the only one of its identity and comes before
    all turn clips of that identity. *)
Definition intros_in_order {U : UnicodeTables} (clips : list Clip) : Prop :=
  forall k (i : nat) c, clips !! i = Some c -> is_intro_of k c ->
    (forall (j : nat) c', clips !! j = Some c' -> is_intro_of k c' -> j = i)
    /\ (forall (j : nat) c', clips !! j = Some c' -> is_turn_of k c' -> (i < j)%nat).

(** Every turn clip comes after the introduction of its identity. *)
Definition turns_introduced {U : UnicodeTables} (clips : list Clip) : Prop :=
  forall k (j : nat) c', clips !! j = Some c' -> is_turn_of k c' ->
    exists (i : nat) c, (i < j)%nat /\ clips !! i = Some c /\ is_intro_of k c.

(** The invariant of the loop of [main]. *)
Definition loop_invariant {U : UnicodeTables} (avatars : gmap pystr pystr)
    (clips : list Clip) (introduced : gmap pystr bool) : Prop :=
  intros_in_order clips
  /\ turns_introduced clips
  /\ (forall k, introduced !! k <> Some true ->
       forall (j : nat) c, clips !! j = Some c -> ~ is_intro_of k c /\ ~ is_turn_of k c)
  /\ (forall k, introduced !! k = Some true ->
       exists (i : nat) c, clips !! i = Some c /\ is_intro_of k c)
  /\ (forall k, is_Some (avatars !! k) -> is_Some (introduced !! k)).

(** An ASCII decimal digit. *)
Definition is_ascii_digit (c : char) : bool := (48 <=? c) && (c <=? 57).

(** The speech request [run_dialog] makes for the turn at 0-based
    position [k] (lines 263-269 with lines 92-103 of tts_engine.py). *)
Definition turn_speech_request {U : UnicodeTables} (dir : pystr) (k : nat) (turn : Turn)
  : SpeechRequest :=
  {| speech_model := GPT_4O_MINI_TTS;
     speech_voice := default (py "alloy") (voice_map !! fst turn);
     speech_input := snd turn;
     speech_response_format := py "mp3";
     speech_file := path_join dir (speech_filename (fst turn) (Z.of_nat k + 1)) |}.

(** What one iteration of the loop of [run_dialog] does to the world when
    it completes: the turn at position [k] with text [reply] is added to a
    copy of the history [hist]. *)
Definition dialog_step {U : UnicodeTables}
    (speech : list SpeechRequest -> SpeechRequest -> option Exn) (dir topic : pystr)
    (k : nat) (hist : History) (reply : pystr) (w w' : World) : Prop :=
  exists agent,
    name agent = speaker_of_turn k
    /\ environ w' = environ w
    /\ heap w' = heap w ++ [hist ++ [(speaker_of_turn k, reply)]]
    /\ (exists extra,
          chat_log w' = chat_log w ++ reply_request agent hist (Some topic) 350 :: extra
          /\ ((extra = [] /\ LATIN_RE_search reply = false)
              \/ exists text, extra = [rewrite_request text agent]
                              /\ (LATIN_RE_search reply = false \/ reply = text)))
    /\ speech_log w'
       = speech_log w ++ [turn_speech_request dir k (speaker_of_turn k, reply)]
    /\ files w'
       = match speech (speech_log w) (turn_speech_request dir k (speaker_of_turn k, reply)) with
         | None => files w ++ [speech_file (turn_speech_request dir k (speaker_of_turn k, reply))]
         | Some _ => files w
         end
    /\ (k = 0%nat -> hist = [] ->
        startswith reply PREFACED_OPENING = true \/ LATIN_RE_search reply = false).

(** The audio files of the turn clips, in clip order. *)
Definition turn_audio_files (clips : list Clip) : list pystr :=
  omap (fun c => match origin c with
                 | avatar_clip _ audio_file => Some audio_file
                 | _ => None
                 end) clips.

(** A file name from which a known speaker is inferred. *)
Definition recognized {U : UnicodeTables} (audio_file : pystr) : bool :=
  str_eqb (detect_speaker_from_filename audio_file) (py "irina")
  || str_eqb (detect_speaker_from_filename audio_file) (py "alexey").

(** The file name of the turn at 0-based position [k], for the speakers
    [speaker_at]. *)
Definition turn_filename {U : UnicodeTables} (speaker_at : nat -> pystr) (k : nat) : pystr :=
  speech_filename (speaker_at k) (Z.of_nat k + 1).

(** A value that neither starts nor ends with a quote of either kind. *)
Definition unquoted (v : pystr) : bool :=
  let is_quote c := (c =? 34) || (c =? 39) in
  negb (is_quote (hd 0 v)) && negb (is_quote (List.last v 0)).

(** ** Sample environments *)

Module Sample.

Definition world : World :=
  {| environ := <[OPENAI_API_KEY := py "sk-test"]> ∅; heap := []; chat_log := [];
     speech_log := []; files := [] |}.

Definition started_world : World :=
  {| environ := <[OPENAI_API_KEY := py "sk-test"]> ∅;
     heap := [[(IRINA_NAME, PREFACED_OPENING)]]; chat_log := [];
     speech_log := []; files := [] |}.

Definition keyless_world : World :=
  {| environ := ∅; heap := [[]]; chat_log := []; speech_log := []; files := [] |}.

(** A model that answers in Latin letters first and rewrites on request. *)
Definition chat (log : list ChatRequest) (req : ChatRequest) : Exn + option pystr :=
  match log with
  | [] => inr (Some (py "Hi"))
  | _ => inr (Some (py "Привет"))
  end.

(** A model that answers every request with the same greeting. *)
Definition greeting_chat (log : list ChatRequest) (req : ChatRequest)
  : Exn + option pystr :=
  inr (Some (py "Привет")).

(** A model that never uses Latin letters. *)
Definition plain_chat (log : list ChatRequest) (req : ChatRequest) : Exn + option pystr :=
  inr (Some (py "Да, конечно.")).

(** A speech service that fails on its second request. *)
Definition speech (log : list SpeechRequest) (req : SpeechRequest) : option Exn :=
  match log with
  | [_] => Some (ServiceError (py "timeout"))
  | _ => None
  end.

Definition audio_dir : pystr := py "audio".

(** Audio files that all open, with a duration of two seconds. *)
Definition audio_clip (w : World) (path : pystr) : Exn + Q := inr (2 # 1).

Definition image_clip (w : World) (path : pystr) : option Exn := None.

Definition no_cover (w : World) (path : pystr) : bool := false.

(** The avatar images exist, the cover image does not. *)
Definition avatars_only (w : World) (path : pystr) : bool :=
  startswith path (py "avatars/").

Definition always_speech (log : list SpeechRequest) (req : SpeechRequest) : option Exn :=
  None.

Definition audio_files : list pystr :=
  [ py "001_д-риринаучёный.mp3"; py "002_д-ралексейскептик.mp3";
    py "003_д-риринаучёный.mp3"; py "004_speaker.mp3" ].

End Sample.

(** * Properties *)

(** ** Strings *)

Section StringFacts.

Lemma dropwhile_app_stop p (x : pystr) c y :
  p c = false -> dropwhile p (x ++ c :: y) = dropwhile p x ++ c :: y.
Proof.
  intros Hc. induction x as [|a x IH]; simpl.
  - now rewrite Hc.
  - destruct (p a); [exact IH | reflexivity].
Qed.

Lemma rstrip_app_nonspace (a : pystr) c b :
  isspace c = false -> rstrip (a ++ c :: b) = a ++ c :: rstrip b.
Proof.
  intros Hc. unfold rstrip.
  rewrite rev_app_distr. simpl rev. rewrite <- app_assoc. simpl app.
  rewrite dropwhile_app_stop by exact Hc.
  rewrite rev_app_distr. simpl rev. rewrite rev_involutive.
  now rewrite <- app_assoc.
Qed.

Lemma rstrip_app_last (x y : pystr) :
  isspace (List.last x 32) = false -> rstrip (x ++ y) = x ++ rstrip y.
Proof.
  intros H. destruct x as [|c x]; [discriminate H|].
  rewrite (app_removelast_last 32 (l := c :: x)) by discriminate.
  rewrite <- !app_assoc. simpl app. now apply rstrip_app_nonspace.
Qed.

Lemma dropwhile_idem p (s : pystr) : dropwhile p (dropwhile p s) = dropwhile p s.
Proof.
  induction s as [|a s IH]; simpl; [reflexivity|].
  destruct (p a) eqn:Ha; [exact IH|]. simpl. now rewrite Ha.
Qed.

Lemma rstrip_idem (s : pystr) : rstrip (rstrip s) = rstrip s.
Proof. unfold rstrip. now rewrite rev_involutive, dropwhile_idem. Qed.

Lemma lstrip_cons_nonspace c (s : pystr) :
  isspace c = false -> lstrip (c :: s) = c :: s.
Proof. intros Hc. unfold lstrip. simpl. now rewrite Hc. Qed.

Lemma lstrip_idem (s : pystr) : lstrip (lstrip s) = lstrip s.
Proof.
  unfold lstrip. induction s as [|a s IH]; simpl; [reflexivity|].
  destruct (isspace a) eqn:Ha; [exact IH|]. simpl. now rewrite Ha.
Qed.

Lemma strip_lstrip (s : pystr) : strip (lstrip s) = strip s.
Proof. unfold strip. now rewrite lstrip_idem. Qed.

Lemma solid_inv a :
  solid a = true ->
  exists c a0 d, isspace c = false /\ isspace d = false /\
                 (c :: a0 = a) /\ (removelast a ++ [d] = a).
Proof.
  unfold solid. intros H. apply andb_true_iff in H as [H1 H2].
  apply negb_true_iff in H1, H2.
  destruct a as [|c a0]; [discriminate H1|].
  exists c, a0, (List.last (c :: a0) 32). repeat split; auto.
  symmetry. apply app_removelast_last. discriminate.
Qed.

Lemma strip_solid_app a r : solid a = true -> strip (a ++ r) = a ++ rstrip r.
Proof.
  intros H. destruct (solid_inv a H) as (c & a0 & d & Hc & Hd & E1 & E2).
  unfold strip.
  assert (L : lstrip (a ++ r) = a ++ r).
  { rewrite <- E1. simpl. now apply lstrip_cons_nonspace. }
  rewrite L. clear L E1.
  remember (removelast a) as a1 eqn:Ha1. clear Ha1. subst a.
  rewrite <- !app_assoc. simpl app.
  now apply rstrip_app_nonspace.
Qed.

Lemma startswith_app p r : startswith (p ++ r) p = true.
Proof.
  induction p as [|c p IH]; simpl; [reflexivity|].
  now rewrite N.eqb_refl, IH.
Qed.

Lemma startswith_inv s p : startswith s p = true -> exists r, s = p ++ r.
Proof.
  revert s. induction p as [|c p IH]; intros s H; simpl in *.
  - now exists s.
  - destruct s as [|a s]; [discriminate|].
    apply andb_true_iff in H as [H1 H2]. apply N.eqb_eq in H1. subst a.
    destruct (IH _ H2) as [r ->]. now exists r.
Qed.

End StringFacts.

(** ** The opening of the expert's first turn *)

Lemma enforce_starts_with_phrase reply :
  exists r, _enforce_irina_first_phrase reply = IRINA_FIRST_PHRASE ++ r.
Proof.
  unfold _enforce_irina_first_phrase.
  destruct (startswith (lstrip reply) IRINA_FIRST_PHRASE) eqn:E.
  - now apply startswith_inv.
  - rewrite strip_solid_app by reflexivity. eauto.
Qed.

Lemma phrase_is_not_prefaced r :
  startswith (IRINA_FIRST_PHRASE ++ r) PREFACED_OPENING = false.
Proof. reflexivity. Qed.

Lemma lstrip_phrase r : lstrip (IRINA_FIRST_PHRASE ++ r) = IRINA_FIRST_PHRASE ++ r.
Proof. reflexivity. Qed.

Lemma add_preface_on_phrase r :
  _add_irina_preface_if_first_turn (IRINA_FIRST_PHRASE ++ r)
  = PREFACED_OPENING ++ rstrip r.
Proof.
  unfold _add_irina_preface_if_first_turn.
  rewrite lstrip_phrase, startswith_app.
  change (IRINA_PREFACE ++ SP ++ IRINA_FIRST_PHRASE) with PREFACED_OPENING.
  rewrite phrase_is_not_prefaced. cbv iota. simpl negb. cbv iota.
  replace (IRINA_PREFACE ++ SP ++ IRINA_FIRST_PHRASE ++ r)
    with (PREFACED_OPENING ++ r)
    by (unfold PREFACED_OPENING; now rewrite <- !app_assoc).
  now rewrite strip_solid_app by reflexivity.
Qed.

(** Opening enforcement followed by preface injection always yields the
    prefaced opening. *)
Lemma enforce_then_preface reply :
  exists rest,
    _add_irina_preface_if_first_turn (_enforce_irina_first_phrase reply)
    = PREFACED_OPENING ++ rest.
Proof.
  destruct (enforce_starts_with_phrase reply) as [r ->].
  rewrite add_preface_on_phrase. eauto.
Qed.

(** Preface injection alone leaves an already prefaced line as it is: the
    line does not start with the opening phrase. *)
Lemma add_preface_alone_keeps_prefaced rest :
  _add_irina_preface_if_first_turn (PREFACED_OPENING ++ rest) = PREFACED_OPENING ++ rest.
Proof. reflexivity. Qed.

(** What the two steps make of an already prefaced line. *)
Lemma enforce_then_preface_on_prefaced rest :
  _add_irina_preface_if_first_turn (_enforce_irina_first_phrase (PREFACED_OPENING ++ rest))
  = PREFACED_OPENING ++ SP ++ PREFACED_OPENING ++ rstrip rest.
Proof.
  assert (E : _enforce_irina_first_phrase (PREFACED_OPENING ++ rest)
              = IRINA_FIRST_PHRASE ++ (SP ++ PREFACED_OPENING) ++ rstrip rest).
  { unfold _enforce_irina_first_phrase.
    change (lstrip (PREFACED_OPENING ++ rest)) with (PREFACED_OPENING ++ rest).
    change (startswith (PREFACED_OPENING ++ rest) IRINA_FIRST_PHRASE) with false.
    cbv iota.
    replace (IRINA_FIRST_PHRASE ++ SP ++ PREFACED_OPENING ++ rest)
      with ((IRINA_FIRST_PHRASE ++ SP ++ PREFACED_OPENING) ++ rest)
      by now rewrite <- !app_assoc.
    rewrite strip_solid_app by reflexivity. now rewrite <- !app_assoc. }
  rewrite E, add_preface_on_phrase.
  rewrite rstrip_app_last by reflexivity.
  now rewrite rstrip_idem, <- !app_assoc.
Qed.

(** ** C1: the opening of the expert's first turn *)

Lemma first_turn_text_prefaced {U : UnicodeTables} resp :
  exists rest, first_turn_text resp = PREFACED_OPENING ++ rest.
Proof. unfold first_turn_text. apply enforce_then_preface. Qed.

Lemma rewrite_without_latin_clean {U : UnicodeTables} chat text agent w :
  LATIN_RE_search text = false ->
  _rewrite_without_latin chat text agent w = (Ok text, w).
Proof. intros H. unfold _rewrite_without_latin. now rewrite H. Qed.

Lemma rewrite_without_latin_dirty {U : UnicodeTables} chat text agent w :
  LATIN_RE_search text = true ->
  _rewrite_without_latin chat text agent w =
  match chat (chat_log w) (rewrite_request text agent) with
  | inl e => (Raise e, with_chat_log w (chat_log w ++ [rewrite_request text agent]))
  | inr c =>
      (Ok (if LATIN_RE_search (strip (or_empty c)) then text else strip (or_empty c)),
       with_chat_log w (chat_log w ++ [rewrite_request text agent]))
  end.
Proof.
  intros H. unfold _rewrite_without_latin. rewrite H. cbn [negb].
  unfold mbind, M_bind, chat_create, with_chat_log.
  destruct (chat (chat_log w) (rewrite_request text agent)) as [e|c]; [reflexivity|].
  unfold mret, M_ret. now destruct (LATIN_RE_search (strip (or_empty c))).
Qed.

Lemma finalize_reply_first_turn {U : UnicodeTables} chat agent resp :
  name agent = IRINA_NAME ->
  finalize_reply chat agent true resp
  = _rewrite_without_latin chat (first_turn_text resp) agent.
Proof.
  intros H. unfold finalize_reply, first_turn_text, str_eqb.
  now rewrite H, bool_decide_eq_true_2.
Qed.

(** C1 (as amended).  On the expert's first turn the text that reaches the
    sanitization step starts with the preface, a space and the opening
    phrase.  Sanitization returns that very text when it has no Latin
    letter and when the single rewrite still has one; a text returned by
    the pipeline is that text, or else the stripped rewrite, which has no
    Latin letter; and when the text has a Latin letter and the stripped
    rewrite has none, the stripped rewrite is the turn text, after the one
    rewrite request. *)
Theorem expert_first_turn_opening {U : UnicodeTables} chat agent resp w :
  name agent = IRINA_NAME ->
  let pre := first_turn_text resp in
  let run := finalize_reply chat agent true resp w in
  startswith pre PREFACED_OPENING = true
  /\ (LATIN_RE_search pre = false -> run = (Ok pre, w))
  /\ (forall c, chat (chat_log w) (rewrite_request pre agent) = inr c ->
       LATIN_RE_search (strip (or_empty c)) = true -> fst run = Ok pre)
  /\ (forall t, fst run = Ok t ->
       t = pre \/
       (LATIN_RE_search pre = true /\ LATIN_RE_search t = false /\
        exists c, chat (chat_log w) (rewrite_request pre agent) = inr c /\
                  t = strip (or_empty c)))
  /\ (forall c, LATIN_RE_search pre = true ->
       chat (chat_log w) (rewrite_request pre agent) = inr c ->
       LATIN_RE_search (strip (or_empty c)) = false ->
       run = (Ok (strip (or_empty c)),
              with_chat_log w (chat_log w ++ [rewrite_request pre agent]))).
Proof.
  intros Hname pre run. subst run.
  rewrite finalize_reply_first_turn by exact Hname. fold pre.
  split.
  { destruct (first_turn_text_prefaced resp) as [rest E]. fold pre in E.
    rewrite E. apply startswith_app. }
  split; [apply rewrite_without_latin_clean|].
  destruct (LATIN_RE_search pre) eqn:HL.
  - rewrite rewrite_without_latin_dirty by exact HL.
    split; [|split].
    + intros c Hc Hlat. now rewrite Hc, Hlat.
    + intros t. destruct (chat (chat_log w) (rewrite_request pre agent)) as [e|c] eqn:Hc;
        [discriminate|].
      simpl fst. destruct (LATIN_RE_search (strip (or_empty c))) eqn:Hlat;
        intros [= <-]; [now left|].
      right. repeat split; eauto.
    + intros c _ Hc Hlat. now rewrite Hc, Hlat.
  - rewrite rewrite_without_latin_clean by exact HL. split; [|split].
    + reflexivity.
    + intros t [= <-]. now left.
    + intros c Hd. discriminate Hd.
Qed.

Lemma expert_first_turn_opening_witness :
  startswith (first_turn_text (U := basic_tables) (Some (py "Привет.")))
             PREFACED_OPENING = true.
Proof.
  exact (proj1 (expert_first_turn_opening (U := basic_tables) Sample.plain_chat agent1
                  (Some (py "Привет.")) Sample.world eq_refl)).
Defined.

(** C1 as stated fails: when the raw text has a Latin letter and the
    rewrite has none, the rewrite becomes the turn text, whatever it starts
    with. *)
Lemma expert_first_turn_opening_lost :
  ~ (forall (U : UnicodeTables) chat agent resp w t w',
        name agent = IRINA_NAME ->
        finalize_reply chat agent true resp w = (Ok t, w') ->
        startswith t PREFACED_OPENING = true
        /\ occurrences PREFACED_OPENING t = 1%nat).
Proof.
  intros H.
  assert (E : exists w',
             finalize_reply (U := basic_tables) Sample.greeting_chat agent1 true
               (Some (py "Hi"))
               Sample.world = (Ok (py "Привет"), w')).
  { eexists. vm_compute. reflexivity. }
  destruct E as [w' E].
  destruct (H basic_tables Sample.greeting_chat agent1 _ _ _ _ eq_refl E) as [Hs _].
  vm_compute in Hs. discriminate Hs.
Qed.

(** ** C2: re-applying the opening steps *)

(** C2 fails on the code: applied to a line that already starts with the
    preface and the opening phrase, opening enforcement puts the phrase in
    front of the preface and preface injection then adds a second preface,
    so the prefaced opening comes out twice. *)
Theorem reapplied_opening_steps_duplicate :
  let line := PREFACED_OPENING ++ py " Тема простая." in
  startswith line PREFACED_OPENING = true
  /\ _add_irina_preface_if_first_turn (_enforce_irina_first_phrase line)
     = PREFACED_OPENING ++ SP ++ line
  /\ _add_irina_preface_if_first_turn (_enforce_irina_first_phrase line) <> line.
Proof.
  cbv zeta. split; [apply startswith_app|].
  rewrite enforce_then_preface_on_prefaced.
  split; [reflexivity|]. vm_compute. discriminate.
Qed.

(** ** C3: prefix stripping *)

(** C3 (as amended).  When the text does not begin, after leading white
    space, with a speaker label, prefix stripping returns the text with its
    leading and trailing white space removed and nothing else changed; a
    text without such white space is returned as it is. *)
Theorem strip_prefix_without_label {U : UnicodeTables} (text : pystr) :
  Re.match_prefix SPEAKER_PREFIX_RE (lstrip text) = None ->
  _strip_leading_speaker_prefix text = strip text
  /\ (strip text = text -> _strip_leading_speaker_prefix text = text).
Proof.
  intros H.
  assert (E : _strip_leading_speaker_prefix text = strip text).
  { unfold _strip_leading_speaker_prefix, Re.sub_empty. rewrite H. apply strip_lstrip. }
  split; [exact E|]. intros Hs. now rewrite E.
Qed.

Lemma strip_prefix_without_label_witness :
  _strip_leading_speaker_prefix (U := basic_tables) (py "  Ирина права.  ")
  = strip (py "  Ирина права.  ").
Proof.
  exact (proj1 (strip_prefix_without_label (U := basic_tables) (py "  Ирина права.  ")
                  eq_refl)).
Defined.

(** C3 as stated fails: white space around a text without a label is
    removed. *)
Lemma strip_prefix_trims_unlabelled :
  ~ (forall (U : UnicodeTables) (text : pystr),
        Re.match_prefix SPEAKER_PREFIX_RE (lstrip text) = None ->
        _strip_leading_speaker_prefix text = text).
Proof.
  intros H. specialize (H basic_tables (py " Да. ") eq_refl).
  vm_compute in H. discriminate H.
Qed.

(** ** C4: sanitization *)

(** C4.  The sanitization step issues at most one rewrite request; a text
    it returns has no Latin letter or is the input; an input without Latin
    letters is returned with no request issued; when the single rewrite
    still has a Latin letter the input is returned after that one request;
    and whenever the service answers, the step returns a text. *)
Theorem rewrite_without_latin_bounded {U : UnicodeTables} chat (text : pystr) agent w :
  let run := _rewrite_without_latin chat text agent w in
  (chat_log (snd run) = chat_log w
   \/ chat_log (snd run) = chat_log w ++ [rewrite_request text agent])
  /\ (forall t, fst run = Ok t -> LATIN_RE_search t = false \/ t = text)
  /\ (LATIN_RE_search text = false -> run = (Ok text, w))
  /\ (forall c, LATIN_RE_search text = true ->
       chat (chat_log w) (rewrite_request text agent) = inr c ->
       LATIN_RE_search (strip (or_empty c)) = true ->
       run = (Ok text, with_chat_log w (chat_log w ++ [rewrite_request text agent])))
  /\ (forall c, chat (chat_log w) (rewrite_request text agent) = inr c ->
       exists t, fst run = Ok t).
Proof.
  cbv zeta. destruct (LATIN_RE_search text) eqn:HL.
  - rewrite rewrite_without_latin_dirty by exact HL.
    destruct (chat (chat_log w) (rewrite_request text agent)) as [e|c] eqn:Hc.
    + repeat split; try discriminate. now right.
    + repeat split.
      * now right.
      * simpl fst. intros t [= <-].
        destruct (LATIN_RE_search (strip (or_empty c))) eqn:E; auto.
      * discriminate.
      * intros c' _ [= <-] E. now rewrite E.
      * intros _ _. eauto.
  - rewrite rewrite_without_latin_clean by exact HL.
    repeat split; try discriminate; eauto.
    simpl. intros t [= <-]. now left.
Qed.

(** ** The effects of [generate_reply] and [synthesize_speech] *)

Section EffectFacts.
Context {U : UnicodeTables}.
Variable chat : list ChatRequest -> ChatRequest -> Exn + option pystr.
Variable speech : list SpeechRequest -> SpeechRequest -> option Exn.
Variable dir : pystr.

Lemma alloc_then_append (hp : list History) (hist : History) (x : Turn) :
  <[length hp := default [] ((hp ++ [hist]) !! length hp) ++ [x]]> (hp ++ [hist])
  = hp ++ [hist ++ [x]].
Proof.
  rewrite lookup_app_r by lia. rewrite Nat.sub_diag. simpl.
  rewrite insert_app_r_alt by lia. now rewrite Nat.sub_diag.
Qed.

Lemma rewrite_without_latin_frame text agent w :
  exists log, snd (_rewrite_without_latin chat text agent w) = with_chat_log w log.
Proof.
  destruct (LATIN_RE_search text) eqn:HL.
  - rewrite rewrite_without_latin_dirty by exact HL.
    destruct (chat _ _); simpl; eauto.
  - rewrite rewrite_without_latin_clean by exact HL. simpl.
    exists (chat_log w). now destruct w.
Qed.

Lemma finalize_reply_frame agent first resp w :
  exists log, snd (finalize_reply chat agent first resp w) = with_chat_log w log.
Proof. unfold finalize_reply. apply rewrite_without_latin_frame. Qed.

Lemma finalize_reply_total agent first resp w :
  (forall log req, exists c, chat log req = inr c) ->
  exists t, fst (finalize_reply chat agent first resp w) = Ok t.
Proof.
  intros Htot. unfold finalize_reply.
  match goal with |- context [_rewrite_without_latin _ ?t _ _] => set (text := t) end.
  destruct (LATIN_RE_search text) eqn:HL.
  - rewrite rewrite_without_latin_dirty by exact HL.
    destruct (Htot (chat_log w) (rewrite_request text agent)) as [c ->]. simpl. eauto.
  - rewrite rewrite_without_latin_clean by exact HL. simpl. eauto.
Qed.

Lemma generate_reply_keyless agent history topic max_tokens w :
  credential w = false ->
  generate_reply chat agent history topic max_tokens w
  = (Raise (RuntimeError MISSING_KEY_MESSAGE), w).
Proof.
  unfold credential. intros H.
  unfold generate_reply, mbind, M_bind, getenv. now rewrite H.
Qed.

Lemma synthesize_speech_keyless text speaker turn_index voice w :
  credential w = false ->
  synthesize_speech speech dir text speaker turn_index voice w
  = (Raise (RuntimeError MISSING_KEY_MESSAGE), w).
Proof.
  unfold credential. intros H.
  unfold synthesize_speech, mbind, M_bind, getenv. now rewrite H.
Qed.

(** What a call of [generate_reply] does when the credential is set: it
    raises what a completion call raised and leaves the heap alone, or it
    returns a new list object that holds the history followed by the new
    turn. *)
Lemma generate_reply_cases agent history topic max_tokens w hist :
  credential w = true ->
  heap w !! history = Some hist ->
  let run := generate_reply chat agent history topic max_tokens w in
  environ (snd run) = environ w /\
  speech_log (snd run) = speech_log w /\
  files (snd run) = files w /\
  ((exists e, fst run = Raise e /\ heap (snd run) = heap w) \/
   (exists reply, fst run = Ok (reply, length (heap w)) /\
      heap (snd run) = heap w ++ [hist ++ [(name agent, reply)]])).
Proof.
  unfold credential. intros Hkey Hh. cbv zeta.
  unfold generate_reply, mbind, M_bind, getenv. rewrite Hkey. cbn [negb].
  unfold list_read. rewrite Hh. change (default [] (Some hist)) with hist. cbv beta iota.
  unfold chat_create.
  generalize (reply_request agent hist topic max_tokens). intros req.
  destruct (chat (chat_log w) req) as [e|resp].
  { cbn. repeat split. left. eauto. }
  set (w1 := {| environ := environ w; heap := heap w; chat_log := chat_log w ++ [req];
                speech_log := speech_log w; files := files w |}).
  set (first := negb (match hist with [] => false | _ => true end)).
  destruct (finalize_reply_frame agent first resp w1) as [log Hlog].
  destruct (finalize_reply chat agent first resp w1) as [[reply|e] w2]; simpl in Hlog; subst w2.
  - unfold list_copy, mbind, M_bind, list_read, list_new, list_append, mret, M_ret.
    cbn. rewrite Hh. change (default [] (Some hist)) with hist.
    rewrite alloc_then_append.
    repeat split. right. eauto.
  - cbn. repeat split. left. eauto.
Qed.

Lemma generate_reply_ok agent history topic max_tokens w hist :
  credential w = true ->
  heap w !! history = Some hist ->
  (forall log req, exists c, chat log req = inr c) ->
  exists reply w',
    generate_reply chat agent history topic max_tokens w
    = (Ok (reply, length (heap w)), w')
    /\ heap w' = heap w ++ [hist ++ [(name agent, reply)]]
    /\ environ w' = environ w.
Proof.
  unfold credential. intros Hkey Hh Htot.
  unfold generate_reply, mbind, M_bind, getenv. rewrite Hkey. cbn [negb].
  unfold list_read. rewrite Hh. change (default [] (Some hist)) with hist. cbv beta iota.
  unfold chat_create.
  generalize (reply_request agent hist topic max_tokens). intros req.
  destruct (Htot (chat_log w) req) as [resp ->].
  set (w1 := {| environ := environ w; heap := heap w; chat_log := chat_log w ++ [req];
                speech_log := speech_log w; files := files w |}).
  set (first := negb (match hist with [] => false | _ => true end)).
  destruct (finalize_reply_frame agent first resp w1) as [log Hlog].
  destruct (finalize_reply_total agent first resp w1 Htot) as [t Ht].
  destruct (finalize_reply chat agent first resp w1) as [r w2].
  simpl in Hlog, Ht. subst w2 r.
  unfold list_copy, mbind, M_bind, list_read, list_new, list_append, mret, M_ret.
  cbn. rewrite Hh. change (default [] (Some hist)) with hist.
  rewrite alloc_then_append. eauto.
Qed.

Lemma range_succ (turns : Z) :
  (1 <= turns)%Z ->
  range turns = 0%Z :: List.map Z.of_nat (seq 1 (Z.to_nat turns - 1)).
Proof.
  intros H. unfold range.
  replace (Z.to_nat turns) with (S (Z.to_nat turns - 1)) at 1 by lia.
  reflexivity.
Qed.

Lemma run_dialog_keyless topic turns w :
  credential w = false -> (1 <= turns)%Z ->
  run_dialog chat speech dir topic turns w
  = (Raise (RuntimeError MISSING_KEY_MESSAGE), with_heap w (heap w ++ [[]])).
Proof.
  intros Hkey Hturns. unfold run_dialog. rewrite range_succ by exact Hturns.
  unfold mbind at 1. unfold M_bind at 1. unfold list_new at 1.
  cbn [for_each]. unfold mbind at 1. unfold M_bind at 1.
  unfold run_dialog_body at 1.
  change (agents !! Z.to_nat (0 mod 2)) with (Some agent1).
  unfold mbind at 1. unfold M_bind at 1.
  rewrite generate_reply_keyless by exact Hkey. reflexivity.
Qed.

End EffectFacts.

(** ** C8: a missing credential *)

(** C8.  Without a credential in the environment, [generate_reply] raises
    the configuration error and leaves the world as it was: no completion
    request is issued and no list object changes.  [synthesize_speech]
    raises the same error, again with the world as it was: no speech
    request is issued.  A dialog of at least one turn raises it with only
    the empty history created. *)
Theorem missing_credential_is_fatal {U : UnicodeTables} chat speech dir
    agent history topic max_tokens text speaker turn_index voice dialog_topic turns w :
  credential w = false ->
  generate_reply chat agent history topic max_tokens w
    = (Raise (RuntimeError MISSING_KEY_MESSAGE), w)
  /\ synthesize_speech speech dir text speaker turn_index voice w
    = (Raise (RuntimeError MISSING_KEY_MESSAGE), w)
  /\ ((1 <= turns)%Z ->
      run_dialog chat speech dir dialog_topic turns w
      = (Raise (RuntimeError MISSING_KEY_MESSAGE), with_heap w (heap w ++ [[]]))).
Proof.
  intros H. split; [now apply generate_reply_keyless|].
  split; [now apply synthesize_speech_keyless|].
  intros Ht. now apply run_dialog_keyless.
Qed.

Lemma missing_credential_is_fatal_witness :
  generate_reply (U := basic_tables) Sample.plain_chat agent1 0%nat (Some (py "Старение")) 350
    Sample.keyless_world
  = (Raise (RuntimeError MISSING_KEY_MESSAGE), Sample.keyless_world).
Proof.
  exact (proj1 (missing_credential_is_fatal (U := basic_tables) Sample.plain_chat
                  Sample.speech Sample.audio_dir agent1 0%nat (Some (py "Старение")) 350
                  (py "Да.") IRINA_NAME 1 (py "nova") (py "Старение") 4
                  Sample.keyless_world eq_refl)).
Defined.

(** ** C9: the caller's history *)

(** C9.  A call of [generate_reply] leaves every list object that existed
    before the call as it was, the caller's history among them; when it
    returns, the history it returns is a list object that did not exist
    before and holds the caller's history followed by the one new turn. *)
Theorem generate_reply_keeps_history {U : UnicodeTables} chat agent history topic
    max_tokens w (hist : History) :
  heap w !! history = Some hist ->
  let run := generate_reply chat agent history topic max_tokens w in
  heap (snd run) !! history = Some hist
  /\ (forall (l : loc) (xs : History), heap w !! l = Some xs -> heap (snd run) !! l = Some xs)
  /\ (forall reply updated, fst run = Ok (reply, updated) ->
       heap w !! updated = None
       /\ heap (snd run) !! updated = Some (hist ++ [(name agent, reply)])
       /\ length (heap (snd run)) = S (length (heap w))).
Proof.
  intros Hh run.
  assert (Hkeep : forall (l : loc) (xs : History),
             heap w !! l = Some xs -> heap (snd run) !! l = Some xs).
  { intros l xs Hl. subst run. destruct (credential w) eqn:Hkey.
    - destruct (generate_reply_cases chat agent history topic max_tokens w hist Hkey Hh)
        as (_ & _ & _ & [(e & _ & ->) | (reply & _ & ->)]); [exact Hl|].
      now apply lookup_app_l_Some.
    - now rewrite generate_reply_keyless. }
  split; [now apply Hkeep|]. split; [exact Hkeep|].
  intros reply updated Hrun. subst run. destruct (credential w) eqn:Hkey.
  - destruct (generate_reply_cases chat agent history topic max_tokens w hist Hkey Hh)
      as (_ & _ & _ & [(e & He & _) | (reply' & Hr & ->)]).
    + rewrite He in Hrun. discriminate.
    + rewrite Hr in Hrun. injection Hrun as -> <-.
      split; [apply lookup_ge_None_2; lia|].
      split.
      * rewrite lookup_app_r by lia. now rewrite Nat.sub_diag.
      * rewrite length_app. simpl. lia.
  - rewrite generate_reply_keyless in Hrun by exact Hkey. discriminate.
Qed.

Lemma generate_reply_keeps_history_witness :
  heap (snd (generate_reply (U := basic_tables) Sample.plain_chat agent2 0%nat
               (Some (py "Старение")) 350 Sample.started_world)) !! 0%nat
  = Some [(IRINA_NAME, PREFACED_OPENING)].
Proof.
  exact (proj1 (generate_reply_keeps_history (U := basic_tables) Sample.plain_chat agent2
                  0%nat (Some (py "Старение")) 350 Sample.started_world
                  [(IRINA_NAME, PREFACED_OPENING)] eq_refl)).
Defined.

(** ** C5: the dialog loop *)

Section DialogLoop.
Context {U : UnicodeTables}.
Variable chat : list ChatRequest -> ChatRequest -> Exn + option pystr.
Variable dir : pystr.

Lemma same_dialog_state_refl w : same_dialog_state w w.
Proof. now repeat split. Qed.

Lemma respects_ret {A} (a : A) : respects (mret a).
Proof. intros w1 w2 H. now split. Qed.

Lemma respects_raise {A} e : respects (raise (A := A) e).
Proof. intros w1 w2 H. now split. Qed.

Lemma bind_run {A B} (m : M A) (f : A -> M B) w :
  (m ≫= f) w = match m w with
               | (Ok a, w') => f a w'
               | (Raise e, w') => (Raise e, w')
               end.
Proof. reflexivity. Qed.

Lemma respects_bind {A B} (m : M A) (f : A -> M B) :
  respects m -> (forall a, respects (f a)) -> respects (m ≫= f).
Proof.
  intros Hm Hf w1 w2 H. unfold mbind, M_bind.
  destruct (Hm w1 w2 H) as [E S].
  destruct (m w1) as [[a1|e1] w1'], (m w2) as [[a2|e2] w2']; simpl in E, S;
    try discriminate; injection E as <-.
  - now apply Hf.
  - now split.
Qed.

Lemma respects_getenv key : respects (getenv key).
Proof.
  intros w1 w2 H. unfold getenv. simpl. split; [|exact H].
  destruct H as (-> & _). reflexivity.
Qed.

Lemma respects_list_read l : respects (list_read l).
Proof.
  intros w1 w2 (He & Hh & Hc). unfold list_read. simpl. rewrite Hh.
  now repeat split.
Qed.

Lemma respects_list_new xs : respects (list_new xs).
Proof.
  intros w1 w2 (He & Hh & Hc). unfold list_new, same_dialog_state. simpl.
  now rewrite He, Hh, Hc.
Qed.

Lemma respects_list_append l x : respects (list_append l x).
Proof.
  intros w1 w2 (He & Hh & Hc). unfold list_append, same_dialog_state. simpl.
  now rewrite He, Hh, Hc.
Qed.

Lemma respects_chat_create req : respects (chat_create chat req).
Proof.
  intros w1 w2 (He & Hh & Hc). unfold chat_create, same_dialog_state. rewrite Hc.
  destruct (chat (chat_log w2) req); simpl; now rewrite He, Hh.
Qed.

Lemma respects_rewrite text agent : respects (_rewrite_without_latin chat text agent).
Proof.
  unfold _rewrite_without_latin.
  destruct (negb (LATIN_RE_search text)); [apply respects_ret|].
  apply respects_bind; [apply respects_chat_create|]. intros resp. apply respects_ret.
Qed.

Lemma respects_generate_reply agent history topic max_tokens :
  respects (generate_reply chat agent history topic max_tokens).
Proof.
  unfold generate_reply.
  apply respects_bind; [apply respects_getenv|]. intros key.
  destruct (negb (opt_truthy key)); [apply respects_raise|].
  apply respects_bind; [apply respects_list_read|]. intros hist.
  apply respects_bind; [apply respects_chat_create|]. intros resp.
  apply respects_bind; [apply respects_rewrite|]. intros reply.
  apply respects_bind.
  { apply respects_bind; [apply respects_list_read|]. intros xs. apply respects_list_new. }
  intros updated.
  apply respects_bind; [apply respects_list_append|]. intros _. apply respects_ret.
Qed.

(** The guarded synthesis of [run_dialog] (lines 262-272) always completes
    and does not touch the dialog state, whatever the speech service does. *)
Lemma guarded_synthesis_silent speech reply speaker turn_index voice w :
  let run :=
    try_except (_ ← synthesize_speech speech dir reply speaker turn_index voice; mret tt)
               (fun e => mret tt) w in
  fst run = Ok tt /\ same_dialog_state (snd run) w.
Proof.
  cbv zeta. unfold try_except, synthesize_speech, mbind, M_bind, getenv.
  destruct (negb (opt_truthy (environ w !! OPENAI_API_KEY))).
  - simpl. split; [reflexivity|apply same_dialog_state_refl].
  - unfold speech_create.
    destruct (speech (speech_log w) _); simpl; split; try reflexivity;
      now repeat split.
Qed.

Lemma run_dialog_body_respects speech1 speech2 topic i history w1 w2 :
  same_dialog_state w1 w2 ->
  fst (run_dialog_body chat speech1 dir topic i history w1)
  = fst (run_dialog_body chat speech2 dir topic i history w2)
  /\ same_dialog_state (snd (run_dialog_body chat speech1 dir topic i history w1))
                       (snd (run_dialog_body chat speech2 dir topic i history w2)).
Proof.
  intros H. unfold run_dialog_body.
  destruct (agents !! Z.to_nat (i mod 2)) as [agent|]; [|now split].
  rewrite !bind_run.
  destruct (respects_generate_reply agent history (Some topic) 350 w1 w2 H) as [E S].
  destruct (generate_reply chat agent history (Some topic) 350 w1) as [[[r1 h1]|e1] w1'],
           (generate_reply chat agent history (Some topic) 350 w2) as [[[r2 h2]|e2] w2'];
    simpl in E, S; try discriminate.
  - injection E as <- <-.
    rewrite !bind_run.
    set (v := default (py "alloy") (voice_map !! name agent)).
    destruct (guarded_synthesis_silent speech1 r1 (name agent) (i + 1) v w1') as [F1 S1].
    destruct (guarded_synthesis_silent speech2 r1 (name agent) (i + 1) v w2') as [F2 S2].
    cbv zeta in F1, S1, F2, S2.
    destruct (try_except _ _ w1') as [q1 u1], (try_except _ _ w2') as [q2 u2].
    simpl in F1, S1, F2, S2. subst q1 q2. simpl.
    split; [reflexivity|].
    destruct S1 as (a1 & b1 & c1), S2 as (a2 & b2 & c2), S as (a & b & c).
    repeat split; congruence.
  - injection E as <-. now split.
Qed.

Lemma for_each_body_respects speech1 speech2 topic (idx : list Z) :
  forall history w1 w2,
    same_dialog_state w1 w2 ->
    fst (for_each idx (run_dialog_body chat speech1 dir topic) history w1)
    = fst (for_each idx (run_dialog_body chat speech2 dir topic) history w2)
    /\ same_dialog_state
         (snd (for_each idx (run_dialog_body chat speech1 dir topic) history w1))
         (snd (for_each idx (run_dialog_body chat speech2 dir topic) history w2)).
Proof.
  induction idx as [|i idx IH]; intros history w1 w2 H; simpl.
  - now split.
  - unfold mbind, M_bind.
    destruct (run_dialog_body_respects speech1 speech2 topic i history w1 w2 H) as [E S].
    destruct (run_dialog_body chat speech1 dir topic i history w1) as [[h1|e1] w1'],
             (run_dialog_body chat speech2 dir topic i history w2) as [[h2|e2] w2'];
      simpl in E, S; try discriminate.
    + injection E as <-. now apply IH.
    + injection E as <-. now split.
Qed.

(** The dialog does not depend on the speech service: the result and the
    dialog state are the same under any two of them. *)
Lemma run_dialog_respects speech1 speech2 topic turns w :
  fst (run_dialog chat speech1 dir topic turns w)
  = fst (run_dialog chat speech2 dir topic turns w)
  /\ same_dialog_state (snd (run_dialog chat speech1 dir topic turns w))
                       (snd (run_dialog chat speech2 dir topic turns w)).
Proof.
  unfold run_dialog, mbind, M_bind, list_new.
  apply for_each_body_respects, same_dialog_state_refl.
Qed.

Hypothesis chat_answers : forall log req, exists c, chat log req = inr c.

Lemma agent_of_turn (k : nat) :
  exists agent, agents !! Z.to_nat (Z.of_nat k mod 2) = Some agent
                /\ name agent = speaker_of_turn k.
Proof.
  unfold speaker_of_turn.
  destruct (Nat.Even_or_Odd k) as [[m ->]|[m ->]].
  - rewrite Nat.even_even.
    replace (Z.of_nat (2 * m)) with (Z.of_nat m * 2)%Z by lia.
    rewrite Z.mod_mul by lia.
    exists agent1. now split.
  - rewrite Nat.even_odd.
    replace (Z.of_nat (2 * m + 1)) with (1 + Z.of_nat m * 2)%Z by lia.
    rewrite Z.mod_add by lia.
    exists agent2. now split.
Qed.

Lemma alternates_snoc hist reply :
  alternates hist -> alternates (hist ++ [(speaker_of_turn (length hist), reply)]).
Proof.
  intros H k spk text Hk.
  destruct (decide (k < length hist)%nat) as [Hlt|Hge].
  - rewrite lookup_app_l in Hk by exact Hlt. eapply H, Hk.
  - rewrite lookup_app_r in Hk by lia.
    destruct (k - length hist)%nat as [|j] eqn:Ej; [|discriminate Hk].
    injection Hk as <- _. f_equal. lia.
Qed.

Lemma run_dialog_body_ok speech topic (k : nat) history w hist :
  credential w = true ->
  heap w !! history = Some hist ->
  exists reply w',
    run_dialog_body chat speech dir topic (Z.of_nat k) history w
    = (Ok (length (heap w)), w')
    /\ heap w' = heap w ++ [hist ++ [(speaker_of_turn k, reply)]]
    /\ environ w' = environ w.
Proof using chat_answers.
  intros Hkey Hh. unfold run_dialog_body.
  destruct (agent_of_turn k) as (agent & -> & <-).
  rewrite bind_run.
  destruct (generate_reply_ok chat agent history (Some topic) 350 w hist Hkey Hh chat_answers)
    as (reply & w1 & -> & Hheap & Henv).
  rewrite bind_run.
  set (v := default (py "alloy") (voice_map !! name agent)).
  destruct (guarded_synthesis_silent speech reply (name agent) (Z.of_nat k + 1) v w1)
    as [F S].
  cbv zeta in F, S. destruct (try_except _ _ w1) as [q u]. simpl in F, S. subst q.
  destruct S as (Se & Sh & _).
  exists reply, u. split; [reflexivity|]. split; congruence.
Qed.

Lemma for_each_body_ok speech topic (n : nat) :
  forall (a : nat) history w hist,
    credential w = true ->
    heap w !! history = Some hist ->
    length hist = a ->
    alternates hist ->
    exists h' w' hist',
      for_each (List.map Z.of_nat (seq a n)) (run_dialog_body chat speech dir topic) history w
      = (Ok h', w')
      /\ heap w' !! h' = Some hist'
      /\ length hist' = (a + n)%nat
      /\ alternates hist'.
Proof using chat_answers.
  induction n as [|n IH]; intros a history w hist Hkey Hh Hlen Halt.
  - exists history, w, hist. simpl. repeat split; auto. lia.
  - simpl seq. simpl List.map. simpl for_each. rewrite bind_run.
    destruct (run_dialog_body_ok speech topic a history w hist Hkey Hh)
      as (reply & w1 & -> & Hheap & Henv).
    assert (Hkey1 : credential w1 = true) by (unfold credential in *; now rewrite Henv).
    assert (Hh1 : heap w1 !! length (heap w) = Some (hist ++ [(speaker_of_turn a, reply)])).
    { rewrite Hheap, lookup_app_r by lia. now rewrite Nat.sub_diag. }
    destruct (IH (S a) (length (heap w)) w1 _ Hkey1 Hh1) as (h' & w' & hist' & E & L & N & A).
    + rewrite length_app. simpl. lia.
    + rewrite <- Hlen. now apply alternates_snoc.
    + exists h', w', hist'. repeat split; auto. lia.
Qed.

Lemma run_dialog_ok speech topic turns w :
  credential w = true ->
  exists h w' hist,
    run_dialog chat speech dir topic turns w = (Ok h, w')
    /\ heap w' !! h = Some hist
    /\ length hist = Z.to_nat turns
    /\ alternates hist.
Proof using chat_answers.
  intros Hkey. unfold run_dialog, range. rewrite bind_run. unfold list_new at 1.
  apply (for_each_body_ok speech topic (Z.to_nat turns) 0%nat _ _ []).
  - exact Hkey.
  - simpl. rewrite lookup_app_r by lia. now rewrite Nat.sub_diag.
  - reflexivity.
  - intros k spk text Hk. discriminate Hk.
Qed.

End DialogLoop.

(** C5.  With a credential configured and a completion service that
    answers, a dialog of [N >= 1] turns returns a history of exactly [N]
    turns whose speakers alternate, the expert first.  Speech synthesis
    has no part in it: under any other speech service, failing wherever
    it may, the dialog returns the same history. *)
Theorem run_dialog_alternates {U : UnicodeTables} chat speech dir topic turns w :
  (1 <= turns)%Z ->
  credential w = true ->
  (forall log req, exists c, chat log req = inr c) ->
  exists h w' hist,
    run_dialog chat speech dir topic turns w = (Ok h, w')
    /\ heap w' !! h = Some hist
    /\ Z.of_nat (length hist) = turns
    /\ alternates hist
    /\ forall speech', exists w'',
         run_dialog chat speech' dir topic turns w = (Ok h, w'')
         /\ heap w'' !! h = Some hist.
Proof.
  intros Hturns Hkey Hchat.
  destruct (run_dialog_ok chat dir Hchat speech topic turns w Hkey)
    as (h & w' & hist & E & Hh & Hlen & Halt).
  exists h, w', hist. repeat split; auto; [lia|].
  intros speech'.
  destruct (run_dialog_respects chat dir speech speech' topic turns w) as [F S].
  rewrite E in F, S. simpl in F, S.
  destruct (run_dialog chat speech' dir topic turns w) as [r w''].
  simpl in F, S. subst r. exists w''. split; [reflexivity|].
  destruct S as (_ & <- & _). exact Hh.
Qed.

Lemma run_dialog_alternates_witness :
  exists h w' hist,
    run_dialog (U := basic_tables) Sample.chat Sample.speech Sample.audio_dir
      (py "Старение") 4 Sample.world = (Ok h, w')
    /\ heap w' !! h = Some hist
    /\ Z.of_nat (length hist) = 4%Z
    /\ alternates hist
    /\ forall speech', exists w'',
         run_dialog (U := basic_tables) Sample.chat speech' Sample.audio_dir
           (py "Старение") 4 Sample.world = (Ok h, w'')
         /\ heap w'' !! h = Some hist.
Proof.
  apply run_dialog_alternates.
  - lia.
  - reflexivity.
  - intros log req. unfold Sample.chat. destruct log; eauto.
Defined.

(** ** C6: artifact file names *)

Section FileNames.
Context {U : UnicodeTables}.

Lemma fold_remove_char (chs : pystr) :
  forall s : pystr,
    fold_left (fun s ch => remove_char ch s) chs s
    = List.filter (fun c => negb (existsb (fun ch => c =? ch) chs)) s.
Proof.
  induction chs as [|ch chs IH]; intros s; simpl.
  - induction s as [|a s IHs]; simpl; [reflexivity|]. now rewrite <- IHs.
  - rewrite IH. unfold remove_char.
    induction s as [|a s IHs]; simpl; [reflexivity|].
    destruct (a =? ch); simpl; [exact IHs|].
    destruct (existsb (fun ch0 => a =? ch0) chs); simpl; now rewrite IHs.
Qed.

Lemma simplify_speaker_name_spec (speaker : pystr) :
  _simplify_speaker_name speaker
  = let kept := List.filter slug_keeps (str_lower speaker) in
    if truthy kept then kept else py "speaker".
Proof. unfold _simplify_speaker_name. now rewrite fold_remove_char. Qed.

Lemma simplify_speaker_name_clean (speaker : pystr) c :
  In c (_simplify_speaker_name speaker) -> slug_keeps c = true.
Proof.
  rewrite simplify_speaker_name_spec. cbv zeta.
  destruct (truthy (List.filter slug_keeps (str_lower speaker))).
  - intros H. now apply List.filter_In in H.
  - intros H. vm_compute in H.
    repeat (destruct H as [<-|H]; [reflexivity|]). destruct H.
Qed.

Lemma format_03d_below_1000 (k : Z) :
  (0 <= k <= 999)%Z -> format_03d k = three_digits (Z.to_N k).
Proof.
  intros Hk.
  assert (C : forallb (fun n => bool_decide (format_03d (Z.of_nat n)
                                             = three_digits (N.of_nat n)))
                      (seq 0 1000) = true) by (vm_compute; reflexivity).
  rewrite forallb_forall in C.
  specialize (C (Z.to_nat k)). rewrite bool_decide_eq_true in C.
  rewrite Z2Nat.id, Z_nat_N in C by lia.
  apply C, in_seq. lia.
Qed.

Lemma three_digits_value (a : N) :
  a = 100 * (a / 100) + 10 * ((a / 10) mod 10) + a mod 10
  /\ (a / 10) mod 10 < 10 /\ a mod 10 < 10.
Proof.
  pose proof (N.div_mod a 10 ltac:(lia)).
  pose proof (N.mod_lt a 10 ltac:(lia)).
  pose proof (N.div_mod (a / 10) 10 ltac:(lia)).
  pose proof (N.mod_lt (a / 10) 10 ltac:(lia)).
  pose proof (N.Div0.div_div a 10 10).
  change (10 * 10) with 100 in *.
  lia.
Qed.

Lemma three_digits_lt (a b : N) :
  a < b -> str_compare (three_digits a) (three_digits b) = Lt.
Proof.
  intros Hab.
  destruct (three_digits_value a) as (Ea & Ta & Ua).
  destruct (three_digits_value b) as (Eb & Tb & Ub).
  unfold three_digits.
  set (ha := a / 100) in *. set (ta := (a / 10) mod 10) in *. set (ua := a mod 10) in *.
  set (hb := b / 100) in *. set (tb := (b / 10) mod 10) in *. set (ub := b mod 10) in *.
  clearbody ha ta ua hb tb ub. cbn [str_compare].
  destruct (N.compare_spec (48 + ha) (48 + hb)); [|reflexivity|lia].
  destruct (N.compare_spec (48 + ta) (48 + tb)); [|reflexivity|lia].
  destruct (N.compare_spec (48 + ua) (48 + ub)); [lia|reflexivity|lia].
Qed.

Lemma str_compare_app_lt (p q x y : pystr) :
  length p = length q -> str_compare p q = Lt -> str_compare (p ++ x) (q ++ y) = Lt.
Proof.
  revert q. induction p as [|a p IH]; intros [|b q] Hlen H; simpl in *; try discriminate.
  destruct (a ?= b); try discriminate; auto.
Qed.

End FileNames.

(** C6 (as amended).  For every turn number from 1 to 999 the file name
    is the three decimal digits of the turn number, an underscore, the
    speaker slug and the extension; the slug is the lower-cased speaker
    name without the space character and the six bracket characters (or a
    fixed word when nothing is left); the name of a turn is strictly below
    the name of every later turn up to 999 in the order of strings; and
    that name is the file the speech request of the turn is streamed to. *)
Theorem speech_filenames_ordered {U : UnicodeTables} (speaker speaker' : pystr) (k k' : Z) :
  (1 <= k)%Z -> (k <= 999)%Z ->
  speech_filename speaker k
    = three_digits (Z.to_N k) ++ py "_" ++ _simplify_speaker_name speaker ++ py ".mp3"
  /\ (let kept := List.filter slug_keeps (str_lower speaker) in
      _simplify_speaker_name speaker = if truthy kept then kept else py "speaker")
  /\ (forall c, In c (_simplify_speaker_name speaker) -> In c SLUG_REMOVED -> False)
  /\ ((k < k')%Z -> (k' <= 999)%Z ->
      str_lt (speech_filename speaker k) (speech_filename speaker' k'))
  /\ (forall speech dir text voice w,
        credential w = true ->
        speech_log (snd (synthesize_speech speech dir text speaker k voice w))
        = speech_log w ++
          [{| speech_model := GPT_4O_MINI_TTS; speech_voice := voice;
              speech_input := text; speech_response_format := py "mp3";
              speech_file := path_join dir (speech_filename speaker k) |}]).
Proof.
  intros H1 H999.
  assert (E : forall s j, (0 <= j <= 999)%Z ->
            speech_filename s j
            = three_digits (Z.to_N j) ++ py "_" ++ _simplify_speaker_name s ++ py ".mp3").
  { intros s j Hj. unfold speech_filename. now rewrite format_03d_below_1000. }
  split; [apply E; lia|].
  split; [apply simplify_speaker_name_spec|].
  split.
  { intros c Hc Hrem. apply simplify_speaker_name_clean in Hc.
    unfold slug_keeps in Hc. apply negb_true_iff in Hc.
    assert (X : existsb (fun ch => c =? ch) SLUG_REMOVED = true).
    { apply existsb_exists. exists c. split; [exact Hrem|apply N.eqb_refl]. }
    congruence. }
  split.
  { intros Hlt H999'. unfold str_lt. rewrite !E by lia.
    apply str_compare_app_lt; [reflexivity|].
    apply three_digits_lt; lia. }
  intros speech dir text voice w Hkey.
  unfold synthesize_speech, mbind, M_bind, getenv. unfold credential in Hkey.
  rewrite Hkey. cbn [negb]. unfold speech_create.
  destruct (speech (speech_log w) _); reflexivity.
Qed.

Lemma speech_filenames_ordered_witness :
  str_lt (speech_filename (U := basic_tables) IRINA_NAME 9)
         (speech_filename (U := basic_tables) ALEXEY_NAME 10).
Proof.
  exact (proj1 (proj2 (proj2 (proj2
           (speech_filenames_ordered (U := basic_tables) IRINA_NAME ALEXEY_NAME 9 10
              ltac:(lia) ltac:(lia))))) ltac:(lia) ltac:(lia)).
Defined.

(** The format holds at the last three-digit turn number. *)
Example speech_filename_999 :
  speech_filename (U := basic_tables) ALEXEY_NAME 999 = py "999_д-ралексейскептик.mp3".
Proof. vm_compute. reflexivity. Qed.

(** C6 as stated fails twice.  From the thousandth turn on the number has
    four digits and the name sorts before those of earlier turns.  And
    the slug keeps whitespace other than the space character: a tab in the
    speaker name stays in the slug. *)
Lemma speech_filenames_unordered_from_1000 :
  ~ (forall (U : UnicodeTables) (speaker speaker' : pystr) (k k' : Z),
        (1 <= k)%Z -> (k < k')%Z ->
        str_lt (speech_filename speaker k) (speech_filename speaker' k'))
  /\ ~ (forall (U : UnicodeTables) (speaker : pystr) (c : char),
          In c (_simplify_speaker_name speaker) -> isspace c = false).
Proof.
  split.
  - intros H.
    specialize (H basic_tables IRINA_NAME ALEXEY_NAME 999%Z 1000%Z ltac:(lia) ltac:(lia)).
    vm_compute in H. discriminate H.
  - intros H.
    specialize (H basic_tables (py "Д-р" ++ [9] ++ py "Ирина") 9).
    assert (E : _simplify_speaker_name (U := basic_tables) (py "Д-р" ++ [9] ++ py "Ирина")
                = py "д-р" ++ [9] ++ py "ирина") by (vm_compute; reflexivity).
    rewrite E in H.
    assert (F : isspace 9 = false) by (apply H; apply in_or_app; right; now left).
    vm_compute in F. discriminate F.
Qed.

(** ** C10: speaker inference *)

(** C10.  A file name whose lower-case form contains the expert's name is
    classified as the expert, whether or not it also contains the
    skeptic's name; a file name whose lower-case form contains the
    skeptic's name and not the expert's is classified as the skeptic; a
    file name whose lower-case form contains neither name is classified as
    unknown. *)
Theorem detect_speaker_first_match {U : UnicodeTables} (filename : pystr) :
  (contains (str_lower filename) (py "ирина") = true ->
   detect_speaker_from_filename filename = py "irina")
  /\ (contains (str_lower filename) (py "ирина") = false ->
      contains (str_lower filename) (py "алексей") = true ->
      detect_speaker_from_filename filename = py "alexey")
  /\ (contains (str_lower filename) (py "ирина") = false ->
      contains (str_lower filename) (py "алексей") = false ->
      detect_speaker_from_filename filename = py "unknown").
Proof.
  unfold detect_speaker_from_filename. split; [|split].
  - intros ->. reflexivity.
  - intros -> ->. reflexivity.
  - intros -> ->. reflexivity.
Qed.

Lemma detect_speaker_first_match_witness :
  detect_speaker_from_filename (U := basic_tables) (py "003_Алексей_и_Ирина.mp3")
  = py "irina".
Proof.
  exact (proj1 (detect_speaker_first_match (U := basic_tables)
                  (py "003_Алексей_и_Ирина.mp3")) eq_refl).
Defined.

(** ** C7: speaker introductions in the assembly *)

Section AssemblyFacts.
Context {U : UnicodeTables}.
Variable speech : list SpeechRequest -> SpeechRequest -> option Exn.
Variable AudioFileClip : World -> pystr -> Exn + Q.
Variable ImageClip : World -> pystr -> option Exn.
Variable path_exists : World -> pystr -> bool.
Variables AUDIO_DIR AVATARS_DIR TMP_DIR ASSETS_DIR : pystr.

Ltac step_bind H :=
  rewrite bind_run in H;
  match type of H with
  | context [match ?m ?w with _ => _ end] =>
      destruct (m w) as [[?|?] ?]; [|discriminate H]
  end.

Lemma attempt_cases {A} (m : M A) w :
  (exists a w', m w = (Ok a, w') /\ attempt m w = (Ok (Some a), w'))
  \/ (exists w', attempt m w = (Ok None, w')).
Proof.
  unfold attempt, try_except. rewrite bind_run.
  destruct (m w) as [[a|e] w']; [left|right]; eauto.
Qed.

Lemma speaker_intro_clip_origin k avatar_path w c w' :
  make_speaker_intro_clip speech AudioFileClip ImageClip path_exists TMP_DIR ASSETS_DIR
    k avatar_path w = (Ok c, w') ->
  origin c = speaker_intro k.
Proof.
  unfold make_speaker_intro_clip.
  destruct (if str_eqb k (py "irina") then _ else _) as [text fname].
  intros H. step_bind H. step_bind H. step_bind H.
  injection H as <- _. reflexivity.
Qed.

Lemma avatar_clip_origin image audio_file w c w' :
  make_avatar_clip AudioFileClip ImageClip AUDIO_DIR image audio_file w = (Ok c, w') ->
  origin c = avatar_clip image audio_file.
Proof.
  unfold make_avatar_clip. intros H. step_bind H. step_bind H.
  injection H as <- _. reflexivity.
Qed.

Lemma topic_intro_clip_origin topic w c w' :
  make_topic_intro_clip speech AudioFileClip ImageClip path_exists TMP_DIR ASSETS_DIR
    topic w = (Ok c, w') ->
  origin c = topic_intro topic.
Proof.
  unfold make_topic_intro_clip. intros H. step_bind H. step_bind H. step_bind H.
  injection H as <- _. reflexivity.
Qed.

Lemma invariant_initial c topic :
  origin c = topic_intro topic ->
  loop_invariant (avatar_map AVATARS_DIR) [c] introduced_init.
Proof.
  intros Hc.
  assert (N : forall k (j : nat) c', [c] !! j = Some c' ->
                ~ is_intro_of k c' /\ ~ is_turn_of k c').
  { intros k j c' Hj. apply list_lookup_singleton_Some in Hj as [_ <-].
    unfold is_intro_of, is_turn_of. rewrite Hc. split.
    - discriminate.
    - intros (image & audio_file & H & _). discriminate H. }
  refine (conj _ (conj _ (conj _ (conj _ _)))).
  - intros k i c0 Hi Hc0. destruct (N k i c0 Hi) as [Hn _]. now destruct Hn.
  - intros k j c' Hj Ht. destruct (N k j c' Hj) as [_ Hn]. now destruct Hn.
  - intros k _. apply N.
  - intros k Hk. unfold introduced_init in Hk.
    apply lookup_insert_Some in Hk as [[_ Hk]|[_ Hk]]; [discriminate|].
    apply lookup_insert_Some in Hk as [[_ Hk]|[_ Hk]]; [discriminate|].
    rewrite lookup_empty in Hk. discriminate.
  - intros k. unfold avatar_map, introduced_init.
    rewrite !lookup_insert_is_Some', !lookup_empty.
    intros [H|[H|[x H]]]; [now left|now (right; left)|discriminate H].
Qed.

Lemma invariant_add_intro avatars clips introduced k c :
  loop_invariant avatars clips introduced ->
  introduced !! k = Some false ->
  is_intro_of k c ->
  loop_invariant avatars (clips ++ [c]) (<[k := true]> introduced).
Proof.
  intros (I1 & T & I2 & I3 & I4) Hk Hc.
  assert (Hnew : forall k', ~ is_turn_of k' c).
  { intros k' (image & audio_file & H & _). unfold is_intro_of in Hc. congruence. }
  assert (Hold : forall (j : nat) c', clips !! j = Some c' ->
                   is_intro_of k c' \/ is_turn_of k c' -> False).
  { intros j c' Hj. assert (Hn : introduced !! k <> Some true) by (rewrite Hk; discriminate).
    destruct (I2 k Hn j c' Hj). tauto. }
  assert (Hsame : forall k', is_intro_of k' c -> k' = k).
  { unfold is_intro_of. intros k' H. congruence. }
  refine (conj _ (conj _ (conj _ (conj _ _)))).
  - intros k0 i c0 Hi Hc0. split.
    + intros j c' Hj Hi'. apply lookup_snoc_Some in Hi as [[Hi Hl]|[-> <-]];
        apply lookup_snoc_Some in Hj as [[Hj Hl']|[-> <-]].
      * eapply I1; eauto.
      * apply Hsame in Hi' as ->. exfalso. eapply Hold; eauto.
      * apply Hsame in Hc0 as ->. exfalso. eapply Hold; eauto.
      * reflexivity.
    + intros j c' Hj Ht. apply lookup_snoc_Some in Hi as [[Hi Hl]|[-> <-]];
        apply lookup_snoc_Some in Hj as [[Hj Hl']|[-> <-]].
      * eapply I1; eauto.
      * exfalso. eapply Hnew; eauto.
      * apply Hsame in Hc0 as ->. exfalso. eapply Hold; eauto.
      * exfalso. eapply Hnew; eauto.
  - intros k' j c' Hj Ht. apply lookup_snoc_Some in Hj as [[Hj Hl']|[-> <-]].
    + destruct (T k' j c' Hl' Ht) as (i & c0 & Hi & Hl & Hc0).
      exists i, c0. repeat split; auto. apply lookup_app_l_Some, Hl.
    + exfalso. eapply Hnew; eauto.
  - intros k' Hk' j c' Hj.
    assert (Hne : k <> k').
    { intros ->. apply Hk'. apply lookup_insert_eq. }
    rewrite lookup_insert_ne in Hk' by exact Hne.
    apply lookup_snoc_Some in Hj as [[Hj Hl']|[-> <-]].
    + eapply I2; eauto.
    + split; [|apply Hnew]. intros E. apply Hsame in E. congruence.
  - intros k' Hk'. destruct (decide (k = k')) as [<-|Hne].
    + exists (length clips), c. split; [|exact Hc].
      apply lookup_snoc_Some. right. now split.
    + rewrite lookup_insert_ne in Hk' by exact Hne.
      destruct (I3 k' Hk') as (i & c0 & Hl & Hc0).
      exists i, c0. split; [|exact Hc0]. apply lookup_app_l_Some, Hl.
  - intros k' Hk'. apply lookup_insert_is_Some'. right. now apply I4.
Qed.

Lemma invariant_add_turn avatars clips introduced k c :
  loop_invariant avatars clips introduced ->
  introduced !! k = Some true ->
  is_turn_of k c ->
  loop_invariant avatars (clips ++ [c]) introduced.
Proof.
  intros (I1 & T & I2 & I3 & I4) Hk Hc.
  assert (Hnew : forall k', ~ is_intro_of k' c).
  { intros k' H. destruct Hc as (image & audio_file & Ho & _).
    unfold is_intro_of in H. congruence. }
  assert (Hsame : forall k', is_turn_of k' c -> k' = k).
  { intros k' (image' & audio' & Ho' & <-). destruct Hc as (image & audio_file & Ho & <-).
    congruence. }
  refine (conj _ (conj _ (conj _ (conj _ _)))).
  - intros k0 i c0 Hi Hc0. split.
    + intros j c' Hj Hi'. apply lookup_snoc_Some in Hi as [[Hi Hl]|[-> <-]];
        apply lookup_snoc_Some in Hj as [[Hj Hl']|[-> <-]].
      * eapply I1; eauto.
      * exfalso. eapply Hnew; eauto.
      * exfalso. eapply Hnew; eauto.
      * reflexivity.
    + intros j c' Hj Ht. apply lookup_snoc_Some in Hi as [[Hi Hl]|[-> <-]];
        apply lookup_snoc_Some in Hj as [[Hj Hl']|[-> <-]].
      * eapply I1; eauto.
      * exact Hi.
      * exfalso. eapply Hnew; eauto.
      * exfalso. eapply Hnew; eauto.
  - intros k' j c' Hj Ht. apply lookup_snoc_Some in Hj as [[Hj Hl']|[-> <-]].
    + destruct (T k' j c' Hl' Ht) as (i & c0 & Hi & Hl & Hc0).
      exists i, c0. repeat split; auto. apply lookup_app_l_Some, Hl.
    + apply Hsame in Ht as ->. destruct (I3 k Hk) as (i & c0 & Hl & Hc0).
      exists i, c0. repeat split; auto.
      * now apply lookup_lt_Some in Hl.
      * apply lookup_app_l_Some, Hl.
  - intros k' Hk' j c' Hj. apply lookup_snoc_Some in Hj as [[Hj Hl']|[-> <-]].
    + eapply I2; eauto.
    + split; [apply Hnew|]. intros E. apply Hsame in E as ->. congruence.
  - intros k' Hk'. destruct (I3 k' Hk') as (i & c0 & Hl & Hc0).
    exists i, c0. split; [|exact Hc0]. apply lookup_app_l_Some, Hl.
  - exact I4.
Qed.

Lemma main_loop_keeps_order (audio_files : list pystr) :
  forall clips introduced w,
    loop_invariant (avatar_map AVATARS_DIR) clips introduced ->
    exists exit clips' w',
      main_loop speech AudioFileClip ImageClip path_exists
        AUDIO_DIR AVATARS_DIR TMP_DIR ASSETS_DIR audio_files clips introduced w
      = (Ok (exit, clips'), w')
      /\ intros_in_order clips' /\ turns_introduced clips'.
Proof.
  induction audio_files as [|audio_file rest IH]; intros clips introduced w Inv.
  { exists Finished, clips, w. destruct Inv as (I1 & T & _).
    split; [reflexivity|]. split; assumption. }
  cbn [main_loop]. cbv zeta.
  set (k := detect_speaker_from_filename audio_file).
  destruct (avatar_map AVATARS_DIR !! k) as [avatar_path|] eqn:Hav; [|now apply IH].
  rewrite bind_run.
  destruct (attempt_cases (open_audio AudioFileClip (path_join AUDIO_DIR audio_file)) w)
    as [(d & w1 & _ & ->)|(w1 & ->)]; [|now apply IH].
  assert (Hturn : forall clips0 introduced0 w0,
             loop_invariant (avatar_map AVATARS_DIR) clips0 introduced0 ->
             introduced0 !! k = Some true ->
             exists exit clips' w',
               (made ← attempt (make_avatar_clip AudioFileClip ImageClip AUDIO_DIR
                                  avatar_path audio_file);
                match made with
                | Some clip =>
                    main_loop speech AudioFileClip ImageClip path_exists
                      AUDIO_DIR AVATARS_DIR TMP_DIR ASSETS_DIR rest (clips0 ++ [clip])
                      introduced0
                | None =>
                    main_loop speech AudioFileClip ImageClip path_exists
                      AUDIO_DIR AVATARS_DIR TMP_DIR ASSETS_DIR rest clips0 introduced0
                end) w0 = (Ok (exit, clips'), w')
               /\ intros_in_order clips' /\ turns_introduced clips').
  { intros clips0 introduced0 w0 Inv0 Hk. rewrite bind_run.
    destruct (attempt_cases (make_avatar_clip AudioFileClip ImageClip AUDIO_DIR
                               avatar_path audio_file) w0)
      as [(clip & w2 & Hmade & ->)|(w2 & ->)]; [|now apply IH].
    apply IH. eapply invariant_add_turn; [exact Inv0|exact Hk|].
    exists avatar_path, audio_file. split; [|reflexivity].
    eapply avatar_clip_origin, Hmade. }
  case_bool_decide as Hintro.
  - rewrite bind_run.
    destruct (attempt_cases (make_speaker_intro_clip speech AudioFileClip ImageClip
                               path_exists TMP_DIR ASSETS_DIR k avatar_path) w1)
      as [(intro & w2 & Hmade & ->)|(w2 & ->)].
    + apply Hturn; [|apply lookup_insert_eq].
      eapply invariant_add_intro; [exact Inv|exact Hintro|].
      eapply speaker_intro_clip_origin, Hmade.
    + exists Returned, clips, w2. destruct Inv as (I1 & T & _).
      split; [reflexivity|]. split; assumption.
  - apply Hturn; [exact Inv|].
    destruct Inv as (_ & _ & _ & _ & I4).
    destruct (I4 k) as [b Hb]; [now rewrite Hav|].
    destruct b; [exact Hb|contradiction].
Qed.

End AssemblyFacts.

(** C7.  Whatever the speech service, the audio and image files and the
    list of audio files are, [main] reaches the end of its loop or returns
    from inside it, and among the clips it has made by then every speaker
    identity has at most one introduction clip, that clip comes before
    every turn clip of the identity, and every turn clip comes after the
    introduction of its identity. *)
Theorem speaker_introduced_once_before_turns {U : UnicodeTables}
    speech AudioFileClip ImageClip path_exists
    (AUDIO_DIR AVATARS_DIR TMP_DIR ASSETS_DIR topic : pystr)
    (audio_files : list pystr) (w : World) :
  exists exit clips w',
    main_clips speech AudioFileClip ImageClip path_exists
      AUDIO_DIR AVATARS_DIR TMP_DIR ASSETS_DIR topic audio_files w
    = (Ok (exit, clips), w')
    /\ (forall k (i : nat) c,
          clips !! i = Some c -> origin c = speaker_intro k ->
          (forall (j : nat) c', clips !! j = Some c' -> origin c' = speaker_intro k -> j = i)
          /\ (forall (j : nat) c', clips !! j = Some c' -> is_turn_of k c' -> (i < j)%nat))
    /\ (forall k (j : nat) c',
          clips !! j = Some c' -> is_turn_of k c' ->
          exists (i : nat) c, (i < j)%nat /\ clips !! i = Some c
                              /\ origin c = speaker_intro k).
Proof.
  assert (Hnone : forall w1 : World,
             exists exit clips w',
               (Ok (Returned, @nil Clip), w1) = (Ok (exit, clips), w')
               /\ (forall k (i : nat) c,
                     clips !! i = Some c -> origin c = speaker_intro k ->
                     (forall (j : nat) c',
                         clips !! j = Some c' -> origin c' = speaker_intro k -> j = i)
                     /\ (forall (j : nat) c',
                            clips !! j = Some c' -> is_turn_of k c' -> (i < j)%nat))
               /\ (forall k (j : nat) c',
                     clips !! j = Some c' -> is_turn_of k c' ->
                     exists (i : nat) c, (i < j)%nat /\ clips !! i = Some c
                                         /\ origin c = speaker_intro k)).
  { intros w1. exists Returned, [], w1. split; [reflexivity|]. split.
    - intros k i c Hi. discriminate Hi.
    - intros k j c' Hj. discriminate Hj. }
  unfold main_clips.
  destruct (negb (match audio_files with [] => false | _ => true end)); [apply Hnone|].
  destruct (negb (forallb _ _)); [apply Hnone|].
  unfold make_clips. rewrite bind_run.
  destruct (attempt_cases (make_topic_intro_clip speech AudioFileClip ImageClip path_exists
                             TMP_DIR ASSETS_DIR topic) w)
    as [(clip & w1 & Hmade & ->)|(w1 & ->)].
  - apply main_loop_keeps_order. eapply invariant_initial.
    eapply topic_intro_clip_origin, Hmade.
  - apply Hnone.
Qed.

(** A run on four files, the last of an unknown speaker: the origins of
    the clips in order. *)
Example assembly_of_sample_files :
  match main_clips (U := basic_tables) Sample.always_speech Sample.audio_clip
          Sample.image_clip Sample.avatars_only (py "audio") (py "avatars") (py "video/_tmp")
          (py "assets") (py "Старение") Sample.audio_files Sample.world with
  | (Ok (exit, clips), _) => (exit, List.map origin clips)
  | (Raise _, _) => (Returned, [])
  end
  = (Finished,
     [ topic_intro (py "Старение");
       speaker_intro (py "irina");
       avatar_clip (py "avatars/irina.jpg") (py "001_д-риринаучёный.mp3");
       speaker_intro (py "alexey");
       avatar_clip (py "avatars/alexey.jpg") (py "002_д-ралексейскептик.mp3");
       avatar_clip (py "avatars/irina.jpg") (py "003_д-риринаучёный.mp3") ]).
Proof. vm_compute. reflexivity. Qed.

(** [main] makes no clip, and no request, when no audio file is selected
    and when an avatar image is missing. *)
Example main_clips_returns_early :
  main_clips (U := basic_tables) Sample.always_speech Sample.audio_clip
    Sample.image_clip Sample.avatars_only (py "audio") (py "avatars") (py "video/_tmp")
    (py "assets") (py "Старение") [] Sample.world
  = (Ok (Returned, []), Sample.world)
  /\ main_clips (U := basic_tables) Sample.always_speech Sample.audio_clip
       Sample.image_clip Sample.no_cover (py "audio") (py "avatars") (py "video/_tmp")
       (py "assets") (py "Старение") Sample.audio_files Sample.world
     = (Ok (Returned, []), Sample.world).
Proof. split; vm_compute; reflexivity. Qed.

(** * Further properties *)

(** ** The loader of .env files *)

Lemma dotenv_line_grows raw_line environ :
  environ ⊆ dotenv_environ (dotenv_line raw_line environ).
Proof.
  unfold dotenv_line.
  destruct (negb (truthy (strip raw_line)) || _ || _); [reflexivity|].
  destruct (split_first 61 (strip raw_line)) as [key value].
  destruct (truthy (strip key) && _) eqn:E; [|reflexivity].
  apply andb_true_iff in E as [_ E]. apply bool_decide_eq_true in E.
  destruct (putenv_accepts (strip key) && _); [|reflexivity].
  simpl. now apply insert_subseteq.
Qed.

Lemma dotenv_lines_grows lines :
  forall environ, environ ⊆ dotenv_environ (dotenv_lines lines environ).
Proof.
  induction lines as [|l ls IH]; intros environ; [reflexivity|].
  simpl. pose proof (dotenv_line_grows l environ) as H.
  destruct (dotenv_line l environ) as [e|e]; simpl in H.
  - etrans; [exact H|apply IH].
  - exact H.
Qed.

(** X1.  The loader never changes or removes a variable that is set: whatever
    the file holds and however the loading ends, every variable of the
    environment keeps its value. *)
Theorem dotenv_keeps_environment file environ key value :
  environ !! key = Some value ->
  dotenv_environ (_load_dotenv_if_present file environ) !! key = Some value.
Proof.
  intros H. destruct file as [lines|]; [|exact H].
  simpl. eapply lookup_weaken; [exact H|apply dotenv_lines_grows].
Qed.

Lemma dotenv_keeps_environment_witness :
  dotenv_environ
    (_load_dotenv_if_present (Some [py "OPENAI_API_KEY=other"; py "TURNS=4"])
       (environ Sample.world)) !! OPENAI_API_KEY = Some (py "sk-test").
Proof.
  exact (dotenv_keeps_environment (Some [py "OPENAI_API_KEY=other"; py "TURNS=4"])
           (environ Sample.world) OPENAI_API_KEY (py "sk-test") eq_refl).
Defined.

(** A line has no effect on an environment that holds the name it
    assigns. *)
Lemma dotenv_line_settled raw_line e0 e1 e2 :
  dotenv_line raw_line e0 = Loaded e1 -> e1 ⊆ e2 ->
  dotenv_line raw_line e2 = Loaded e2.
Proof.
  unfold dotenv_line.
  destruct (negb (truthy (strip raw_line)) || _ || _); [reflexivity|].
  destruct (split_first 61 (strip raw_line)) as [key value].
  destruct (truthy (strip key)) eqn:K; [|reflexivity]. cbn [andb].
  intros H1 Hsub.
  assert (Hin : is_Some (e1 !! strip key)).
  { case_bool_decide as E0.
    - destruct (putenv_accepts (strip key) && _); [|discriminate H1].
      injection H1 as <-. rewrite lookup_insert_eq. eauto.
    - injection H1 as <-. destruct (e0 !! strip key); [eauto|contradiction]. }
  destruct Hin as [v Hv].
  rewrite bool_decide_eq_false_2; [reflexivity|].
  rewrite (lookup_weaken _ _ _ _ Hv Hsub). discriminate.
Qed.

Lemma dotenv_lines_settled lines :
  forall e0 e1 e2,
    dotenv_lines lines e0 = Loaded e1 -> e1 ⊆ e2 ->
    dotenv_lines lines e2 = Loaded e2.
Proof.
  induction lines as [|l ls IH]; intros e0 e1 e2 H Hsub; [reflexivity|].
  simpl in H. destruct (dotenv_line l e0) as [e|e] eqn:El; [|discriminate H].
  simpl. rewrite (dotenv_line_settled l e0 e e2 El).
  - eapply IH; eauto.
  - etrans; [|exact Hsub].
    pose proof (dotenv_lines_grows ls e) as G. now rewrite H in G.
Qed.

(** X2.  Loading is idempotent: after a file has been loaded, loading it again
    changes nothing (the modules of one process each load the same
    file). *)
Theorem dotenv_load_twice file environ environ' :
  _load_dotenv_if_present file environ = Loaded environ' ->
  _load_dotenv_if_present file environ' = Loaded environ'.
Proof.
  destruct file as [lines|]; [|reflexivity].
  simpl. intros H. eapply dotenv_lines_settled; [exact H|reflexivity].
Qed.

Lemma dotenv_load_twice_witness :
  let file := Some [py "# keys"; py "OPENAI_API_KEY='sk-1'"; py ""; py "TURNS = 4";
                    py "OPENAI_API_KEY=sk-2"] in
  let environ' := dotenv_environ (_load_dotenv_if_present file ∅) in
  _load_dotenv_if_present file environ' = Loaded environ'.
Proof.
  cbv zeta. apply (dotenv_load_twice _ ∅). vm_compute. reflexivity.
Defined.

(** ** The text transforms taken one at a time *)

(** X4.  Opening enforcement is idempotent. *)
Theorem enforce_first_phrase_idempotent (reply : pystr) :
  _enforce_irina_first_phrase (_enforce_irina_first_phrase reply)
  = _enforce_irina_first_phrase reply.
Proof.
  destruct (enforce_starts_with_phrase reply) as [r ->].
  unfold _enforce_irina_first_phrase.
  now rewrite lstrip_phrase, startswith_app.
Qed.

Lemma add_preface_of_lstrip (reply : pystr) :
  _add_irina_preface_if_first_turn (lstrip reply) = _add_irina_preface_if_first_turn reply.
Proof. unfold _add_irina_preface_if_first_turn. now rewrite lstrip_idem. Qed.

(** X5.  Preface injection is idempotent, and what it returns either starts
    with the prefaced opening or does not start with the opening phrase. *)
Theorem add_preface_idempotent (reply : pystr) :
  _add_irina_preface_if_first_turn (_add_irina_preface_if_first_turn reply)
  = _add_irina_preface_if_first_turn reply
  /\ (startswith (_add_irina_preface_if_first_turn reply) PREFACED_OPENING = true
      \/ startswith (_add_irina_preface_if_first_turn reply) IRINA_FIRST_PHRASE = false).
Proof.
  destruct (startswith (lstrip reply) IRINA_FIRST_PHRASE) eqn:E.
  - apply startswith_inv in E as [r E].
    rewrite <- (add_preface_of_lstrip reply), E, add_preface_on_phrase.
    split; [apply add_preface_alone_keeps_prefaced|]. left. apply startswith_app.
  - assert (H : _add_irina_preface_if_first_turn reply = lstrip reply).
    { unfold _add_irina_preface_if_first_turn. now rewrite E. }
    rewrite H, add_preface_of_lstrip, H. split; [reflexivity|now right].
Qed.

(** ** What prefix stripping removes *)

Section StripPrefix.
Context {U : UnicodeTables}.

Lemma star_space_rest {A} (s : pystr) (k : pystr -> option A) x :
  Re.star_space s k = Some x -> exists pre s', s = pre ++ s' /\ k s' = Some x.
Proof.
  induction s as [|a s IH]; simpl; intros H.
  - now exists [], [].
  - destruct (isspace a).
    + destruct (Re.star_space s k) as [y|] eqn:E.
      * injection H as ->. destruct (IH eq_refl) as (pre & s' & -> & Hk).
        now exists (a :: pre), s'.
      * now exists [], (a :: s).
    + now exists [], (a :: s).
Qed.

Lemma rmatch_rest {A} (r : Re.regex) :
  forall (s : pystr) (k : pystr -> option A) x,
    Re.rmatch r s k = Some x -> exists pre s', s = pre ++ s' /\ k s' = Some x.
Proof.
  induction r as [|c| |r IH|r1 IH1 r2 IH2|r1 IH1 r2 IH2]; intros s k x H; simpl in H.
  - now exists [], s.
  - destruct s as [|a s]; [discriminate|].
    destruct (ignorecase_match a c); [|discriminate]. now exists [a], s.
  - now apply star_space_rest.
  - destruct (Re.rmatch r s k) as [y|] eqn:E.
    + injection H as ->. now apply IH.
    + now exists [], s.
  - destruct (Re.rmatch r1 s k) as [y|] eqn:E.
    + injection H as ->. now apply IH1.
    + now apply IH2.
  - apply IH1 in H as (pre1 & s1 & -> & H).
    apply IH2 in H as (pre2 & s2 & -> & H).
    exists (pre1 ++ pre2), s2. now rewrite <- app_assoc.
Qed.

Lemma lstrip_split (s : pystr) :
  exists ws, s = ws ++ lstrip s /\ forallb isspace ws = true.
Proof.
  unfold lstrip. induction s as [|a s IH]; simpl.
  - now exists [].
  - destruct (isspace a) eqn:Ha.
    + destruct IH as (ws & E & Hws). exists (a :: ws). simpl.
      rewrite Ha, Hws. split; [now rewrite <- E|reflexivity].
    + now exists [].
Qed.

Lemma rstrip_split (s : pystr) :
  exists ws, s = rstrip s ++ ws /\ forallb isspace ws = true.
Proof.
  unfold rstrip. destruct (lstrip_split (rev s)) as (ws & E & Hws).
  unfold lstrip in E. exists (rev ws). split.
  - rewrite <- rev_app_distr, <- E. now rewrite rev_involutive.
  - rewrite forallb_forall in *. intros c Hc. apply Hws. now apply in_rev.
Qed.

(** X6.  Prefix stripping only cuts at the two ends: the reply is what was
    removed in front, then the result, then white space.  So a label later
    in the line, and everything else after the removed prefix, stays as it
    is. *)
Theorem strip_prefix_keeps_rest (reply : pystr) :
  exists removed trailing,
    reply = removed ++ _strip_leading_speaker_prefix reply ++ trailing
    /\ forallb isspace trailing = true.
Proof.
  unfold _strip_leading_speaker_prefix, strip.
  destruct (lstrip_split reply) as (ws1 & E1 & _).
  assert (H : exists pre, lstrip reply = pre ++ Re.sub_empty SPEAKER_PREFIX_RE (lstrip reply)).
  { unfold Re.sub_empty, Re.match_prefix.
    destruct (Re.rmatch SPEAKER_PREFIX_RE (lstrip reply) Some) as [rest|] eqn:E.
    - apply rmatch_rest in E as (pre & s' & E & [= ->]). eauto.
    - now exists []. }
  destruct H as (pre & E2).
  set (rest := Re.sub_empty SPEAKER_PREFIX_RE (lstrip reply)) in *.
  destruct (lstrip_split rest) as (ws2 & E3 & _).
  destruct (rstrip_split (lstrip rest)) as (ws3 & E4 & Hws3).
  exists (ws1 ++ pre ++ ws2), ws3. split; [|exact Hws3].
  rewrite <- !app_assoc. rewrite <- E4, <- E3, <- E2. exact E1.
Qed.

End StripPrefix.

Section OwnLabel.
Context {U : UnicodeTables}.
Hypothesis match_refl : forall c, ignorecase_match c c = true.
(** the capital letters A and I of the two names, and the first letters of
    the two roles, do not match each other *)
Hypothesis match_names : ignorecase_match 1040 1048 = false.
Hypothesis match_roles : ignorecase_match 1089 1091 = false.

Lemma star_space_some (s : pystr) :
  Re.star_space s (fun s' => Some s') = Some (lstrip s).
Proof.
  unfold lstrip. induction s as [|a s IH]; simpl; [reflexivity|].
  destruct (isspace a); [now rewrite IH|reflexivity].
Qed.

Lemma rmatch_str {A} (p s : pystr) (k : pystr -> option A) :
  Re.rmatch (Re.Str p) (p ++ s) k = k s.
Proof using match_refl.
  induction p as [|c p IH]; simpl; [reflexivity|]. now rewrite match_refl.
Qed.

Lemma rmatch_str_fail {A} (p s : pystr) (k : pystr -> option A) :
  truthy p = true -> truthy s = true ->
  ignorecase_match (hd 0 s) (hd 0 p) = false ->
  Re.rmatch (Re.Str p) s k = None.
Proof.
  destruct p as [|c p], s as [|a s]; try discriminate. simpl. now intros _ _ ->.
Qed.

Lemma star_space_stop {A} (s : pystr) (k : pystr -> option A) :
  isspace (hd 0 s) = false -> Re.star_space s k = k s.
Proof. destruct s as [|c s]; simpl; [reflexivity|]. now intros ->. Qed.

Lemma star_space_skip {A} (s : pystr) (k : pystr -> option A) :
  Re.star_space (32 :: s) k
  = match Re.star_space s k with Some x => Some x | None => k (32 :: s) end.
Proof. reflexivity. Qed.

Lemma match_label_irina (body : pystr) :
  Re.match_prefix SPEAKER_PREFIX_RE (IRINA_NAME ++ py ": " ++ body) = Some (lstrip body).
Proof using match_refl.
  unfold Re.match_prefix, SPEAKER_PREFIX_RE. cbn [fold_right Re.rmatch].
  change (IRINA_NAME ++ py ": " ++ body)
    with (py "Д" ++ py "-" ++ py "р" ++ 32 :: py "Ирина" ++ 32 :: py "(" ++ py "учёный"
          ++ py ")" ++ py ":" ++ 32 :: body).
  rewrite star_space_stop by reflexivity.
  rewrite !rmatch_str. rewrite star_space_skip, star_space_stop by reflexivity.
  rewrite !rmatch_str. rewrite star_space_skip, star_space_stop by reflexivity.
  rewrite !rmatch_str. rewrite star_space_stop by reflexivity.
  rewrite !rmatch_str. now rewrite star_space_some.
Qed.

Lemma match_label_alexey (body : pystr) :
  Re.match_prefix SPEAKER_PREFIX_RE (ALEXEY_NAME ++ py ": " ++ body) = Some (lstrip body).
Proof using match_refl match_names match_roles.
  unfold Re.match_prefix, SPEAKER_PREFIX_RE. cbn [fold_right Re.rmatch].
  change (ALEXEY_NAME ++ py ": " ++ body)
    with (py "Д" ++ py "-" ++ py "р" ++ 32 :: py "Алексей" ++ 32 :: py "(" ++ py "скептик"
          ++ py ")" ++ py ":" ++ 32 :: body).
  rewrite star_space_stop by reflexivity.
  rewrite !rmatch_str. rewrite star_space_skip, star_space_stop by reflexivity.
  rewrite (rmatch_str_fail (py "Ирина")) by (reflexivity || exact match_names).
  rewrite !rmatch_str. rewrite star_space_skip, star_space_stop by reflexivity.
  rewrite !rmatch_str.
  rewrite (rmatch_str_fail (py "учёный")) by (reflexivity || exact match_roles).
  rewrite ?rmatch_str. rewrite star_space_stop by reflexivity.
  rewrite !rmatch_str. now rewrite star_space_some.
Qed.

End OwnLabel.

(** X7.  When a reply opens with the speaker's own name and role as [run_dialog]
    writes them, followed by a colon, prefix stripping removes that label:
    what is left is the rest of the reply without surrounding white space.
    The tables are asked to match a letter with itself and to tell the
    initials of the two names and of the two roles apart. *)
Theorem strip_prefix_removes_own_label {U : UnicodeTables} (agent : Agent) (body : pystr) :
  (forall c, ignorecase_match c c = true) ->
  ignorecase_match 1040 1048 = false ->
  ignorecase_match 1089 1091 = false ->
  In agent agents ->
  _strip_leading_speaker_prefix (name agent ++ py ": " ++ body) = strip body.
Proof.
  intros Hrefl Hnames Hroles Hin.
  unfold _strip_leading_speaker_prefix, Re.sub_empty.
  destruct Hin as [<-|[<-|[]]].
  - change (lstrip (name agent1 ++ py ": " ++ body)) with (IRINA_NAME ++ py ": " ++ body).
    rewrite match_label_irina by exact Hrefl. apply strip_lstrip.
  - change (lstrip (name agent2 ++ py ": " ++ body)) with (ALEXEY_NAME ++ py ": " ++ body).
    rewrite match_label_alexey by assumption. apply strip_lstrip.
Qed.

Lemma strip_prefix_removes_own_label_witness :
  _strip_leading_speaker_prefix (U := basic_tables)
    (name agent2 ++ py ": " ++ py "А где данные? ")
  = strip (py "А где данные? ").
Proof.
  apply (strip_prefix_removes_own_label (U := basic_tables) agent2).
  - intros c. apply N.eqb_refl.
  - reflexivity.
  - reflexivity.
  - right. left. reflexivity.
Defined.

(** ** The names of the audio files *)

Section FileNameFacts.
Context {U : UnicodeTables}.

(** X8.  The slug is never empty: a speaker name that consists of spaces and
    brackets only (or is empty) gets the slug [speaker]. *)
Theorem simplify_speaker_name_nonempty (speaker : pystr) :
  _simplify_speaker_name speaker <> []
  /\ (forallb (fun c => negb (slug_keeps c)) (str_lower speaker) = true ->
      _simplify_speaker_name speaker = py "speaker").
Proof.
  rewrite simplify_speaker_name_spec. cbv zeta. split.
  - destruct (List.filter slug_keeps (str_lower speaker)) eqn:E; simpl; discriminate.
  - intros H.
    assert (E : List.filter slug_keeps (str_lower speaker) = []).
    { induction (str_lower speaker) as [|c l IH]; [reflexivity|].
      simpl in H. apply andb_true_iff in H as [Hc Hl]. apply negb_true_iff in Hc.
      simpl. rewrite Hc. now apply IH. }
    now rewrite E.
Qed.

Lemma uint_chars_digits d : forallb is_ascii_digit (uint_chars d) = true.
Proof. induction d; simpl; auto. Qed.

Lemma uint_chars_inj d : forall d', uint_chars d = uint_chars d' -> d = d'.
Proof.
  induction d; intros d' H; destruct d'; simpl in H; try discriminate;
    try reflexivity; injection H as H; f_equal; now apply IHd.
Qed.

Lemma decimal_nonempty n : decimal n <> [].
Proof.
  unfold decimal. intros H.
  assert (E : N.to_uint n = Decimal.Nil) by (apply uint_chars_inj; exact H).
  pose proof (DecimalN.Unsigned.to_of (N.to_uint n)) as T.
  rewrite DecimalN.Unsigned.of_to, E in T. discriminate T.
Qed.

Lemma decimal_leading_zero n t : decimal n = 48 :: t -> t = [].
Proof.
  unfold decimal. intros H.
  pose proof (DecimalN.Unsigned.to_of (N.to_uint n)) as T.
  rewrite DecimalN.Unsigned.of_to in T.
  destruct (N.to_uint n) as [|d| | | | | | | | |] eqn:E; simpl in H; try discriminate.
  injection H as <-.
  rewrite DecimalFacts.unorm_D0 in T.
  destruct (Decimal.nzhead d) eqn:Hd.
  - unfold Decimal.unorm in T. rewrite Hd in T. now injection T as ->.
  - exfalso. apply (DecimalFacts.nzhead_nonzero d u). exact Hd.
  - exfalso. rewrite DecimalFacts.unorm_nzhead in T by (rewrite Hd; discriminate).
    rewrite Hd in T. discriminate T.
  - exfalso. rewrite DecimalFacts.unorm_nzhead in T by (rewrite Hd; discriminate).
    rewrite Hd in T. discriminate T.
  - exfalso. rewrite DecimalFacts.unorm_nzhead in T by (rewrite Hd; discriminate).
    rewrite Hd in T. discriminate T.
  - exfalso. rewrite DecimalFacts.unorm_nzhead in T by (rewrite Hd; discriminate).
    rewrite Hd in T. discriminate T.
  - exfalso. rewrite DecimalFacts.unorm_nzhead in T by (rewrite Hd; discriminate).
    rewrite Hd in T. discriminate T.
  - exfalso. rewrite DecimalFacts.unorm_nzhead in T by (rewrite Hd; discriminate).
    rewrite Hd in T. discriminate T.
  - exfalso. rewrite DecimalFacts.unorm_nzhead in T by (rewrite Hd; discriminate).
    rewrite Hd in T. discriminate T.
  - exfalso. rewrite DecimalFacts.unorm_nzhead in T by (rewrite Hd; discriminate).
    rewrite Hd in T. discriminate T.
  - exfalso. rewrite DecimalFacts.unorm_nzhead in T by (rewrite Hd; discriminate).
    rewrite Hd in T. discriminate T.
Qed.

Lemma decimal_inj a b : decimal a = decimal b -> a = b.
Proof.
  unfold decimal. intros H. apply DecimalN.Unsigned.to_uint_inj.
  now apply uint_chars_inj.
Qed.

Lemma dropwhile_zfill w (s : pystr) :
  dropwhile (fun c => c =? 48) (zfill w s) = dropwhile (fun c => c =? 48) s.
Proof.
  unfold zfill. induction (w - length s)%nat as [|m IH]; simpl; [reflexivity|exact IH].
Qed.

Lemma dropwhile_zero_decimal n :
  dropwhile (fun c => c =? 48) (decimal n)
  = if bool_decide (decimal n = [48]) then [] else decimal n.
Proof.
  destruct (decimal n) as [|c t] eqn:E; [now destruct (decimal_nonempty n)|].
  simpl. destruct (c =? 48) eqn:Hc.
  - apply N.eqb_eq in Hc. subst c. apply decimal_leading_zero in E as ->.
    reflexivity.
  - rewrite bool_decide_eq_false_2; [reflexivity|].
    intros [= -> _]. discriminate Hc.
Qed.

Lemma zfill_decimal_inj w a b : zfill w (decimal a) = zfill w (decimal b) -> a = b.
Proof.
  intros H. apply (f_equal (dropwhile (fun c => c =? 48))) in H.
  rewrite !dropwhile_zfill, !dropwhile_zero_decimal in H.
  apply decimal_inj.
  repeat case_bool_decide; try congruence.
  - now destruct (decimal_nonempty b).
  - now destruct (decimal_nonempty a).
Qed.

Lemma zfill_decimal_digits w n : forallb is_ascii_digit (zfill w (decimal n)) = true.
Proof.
  unfold zfill, decimal. rewrite forallb_app, uint_chars_digits, andb_true_r.
  induction (w - _)%nat; simpl; auto.
Qed.

Lemma digits_before_underscore (d1 : pystr) :
  forall d2 r1 r2,
    forallb is_ascii_digit d1 = true -> forallb is_ascii_digit d2 = true ->
    d1 ++ 95 :: r1 = d2 ++ 95 :: r2 -> d1 = d2.
Proof.
  induction d1 as [|c d1 IH]; intros [|c' d2] r1 r2 H1 H2 E; simpl in *.
  - reflexivity.
  - injection E as <- _. discriminate H2.
  - injection E as -> _. discriminate H1.
  - injection E as <- E. apply andb_true_iff in H1 as [_ H1], H2 as [_ H2].
    f_equal. eapply IH; eauto.
Qed.

(** X9.  Two turns never share a file name, whatever their speakers and
    however large their numbers: different turn numbers give different
    names, so no turn overwrites the audio of another. *)
Theorem speech_filename_injective (speaker speaker' : pystr) (k k' : Z) :
  (0 <= k)%Z -> (0 <= k')%Z -> k <> k' ->
  speech_filename speaker k <> speech_filename speaker' k'.
Proof.
  intros Hk Hk' Hne. unfold speech_filename, format_03d.
  destruct (Z.ltb_spec k 0); [lia|]. destruct (Z.ltb_spec k' 0); [lia|].
  intros E.
  apply (digits_before_underscore _ _ (_simplify_speaker_name speaker ++ py ".mp3")
           (_simplify_speaker_name speaker' ++ py ".mp3")) in E;
    try apply zfill_decimal_digits.
  apply zfill_decimal_inj in E. lia.
Qed.

End FileNameFacts.

Lemma speech_filename_injective_witness :
  speech_filename (U := basic_tables) IRINA_NAME 100
  <> speech_filename (U := basic_tables) IRINA_NAME 1000.
Proof.
  apply (speech_filename_injective (U := basic_tables) IRINA_NAME IRINA_NAME); lia.
Defined.

(** ** The requests and files of a dialog *)

Section DialogEffects.
Context {U : UnicodeTables}.
Variable chat : list ChatRequest -> ChatRequest -> Exn + option pystr.
Variable speech : list SpeechRequest -> SpeechRequest -> option Exn.
Variable dir : pystr.
Hypothesis chat_answers : forall log req, exists c, chat log req = inr c.

Lemma generate_reply_log agent history topic max_tokens w hist :
  credential w = true ->
  heap w !! history = Some hist ->
  exists reply extra w',
    generate_reply chat agent history topic max_tokens w
    = (Ok (reply, length (heap w)), w')
    /\ environ w' = environ w
    /\ heap w' = heap w ++ [hist ++ [(name agent, reply)]]
    /\ speech_log w' = speech_log w
    /\ files w' = files w
    /\ chat_log w' = chat_log w ++ reply_request agent hist topic max_tokens :: extra
    /\ ((extra = [] /\ LATIN_RE_search reply = false)
        \/ exists text, extra = [rewrite_request text agent]
                        /\ (LATIN_RE_search reply = false \/ reply = text))
    /\ (hist = [] -> name agent = IRINA_NAME ->
        startswith reply PREFACED_OPENING = true \/ LATIN_RE_search reply = false).
Proof using chat_answers.
  unfold credential. intros Hkey Hh.
  unfold generate_reply. rewrite bind_run. unfold getenv at 1. rewrite Hkey. cbn [negb].
  rewrite bind_run. unfold list_read at 1. rewrite Hh.
  change (default [] (Some hist)) with hist.
  rewrite bind_run. unfold chat_create at 1.
  set (req := reply_request agent hist topic max_tokens).
  destruct (chat_answers (chat_log w) req) as [resp ->].
  rewrite bind_run. unfold finalize_reply.
  match goal with |- context [_rewrite_without_latin _ ?t _ _] => set (text := t) end.
  assert (Hfirst : hist = [] -> name agent = IRINA_NAME ->
                   startswith text PREFACED_OPENING = true).
  { intros -> Hn. subst text. unfold str_eqb. rewrite Hn, bool_decide_eq_true_2 by reflexivity.
    cbn [negb andb].
    destruct (enforce_then_preface (_strip_leading_speaker_prefix (strip (or_empty resp))))
      as [rest ->].
    apply startswith_app. }
  clearbody text.
  set (w1 := {| environ := environ w; heap := heap w; chat_log := chat_log w ++ [req];
                speech_log := speech_log w; files := files w |}).
  assert (Hfin : forall reply log,
             exists w',
               (updated_history ← list_copy history;
                _ ← list_append updated_history (name agent, reply);
                mret (reply, updated_history)) (with_chat_log w1 log)
               = (Ok (reply, length (heap w)), w')
               /\ environ w' = environ w
               /\ heap w' = heap w ++ [hist ++ [(name agent, reply)]]
               /\ speech_log w' = speech_log w
               /\ files w' = files w
               /\ chat_log w' = log).
  { intros reply log. eexists.
    unfold list_copy, mbind, M_bind, list_read, list_new, list_append, mret, M_ret.
    cbn. rewrite Hh. change (default [] (Some hist)) with hist.
    rewrite alloc_then_append. repeat split; reflexivity. }
  destruct (LATIN_RE_search text) eqn:HL.
  - rewrite rewrite_without_latin_dirty by exact HL.
    destruct (chat_answers (chat_log w1) (rewrite_request text agent)) as [c ->].
    set (reply := if LATIN_RE_search (strip (or_empty c)) then text else strip (or_empty c)).
    destruct (Hfin reply (chat_log w1 ++ [rewrite_request text agent]))
      as (w' & E & He & Hp & Hs & Hf & Hc).
    exists reply, [rewrite_request text agent], w'.
    split; [exact E|]. repeat split; auto.
    + rewrite Hc. simpl. now rewrite <- app_assoc.
    + right. exists text. split; [reflexivity|]. subst reply.
      destruct (LATIN_RE_search (strip (or_empty c))) eqn:Hr; auto.
    + intros Hh0 Hn. subst reply.
      destruct (LATIN_RE_search (strip (or_empty c))) eqn:Hr; auto.
  - rewrite rewrite_without_latin_clean by exact HL.
    destruct (Hfin text (chat_log w1)) as (w' & E & He & Hp & Hs & Hf & Hc).
    exists text, [], w'.
    replace (with_chat_log w1 (chat_log w1)) with w1 in E by reflexivity.
    split; [exact E|]. repeat split; auto.
Qed.

Lemma guarded_synthesis_effect reply speaker turn_index voice w :
  credential w = true ->
  let req := {| speech_model := GPT_4O_MINI_TTS; speech_voice := voice;
                speech_input := reply; speech_response_format := py "mp3";
                speech_file := path_join dir (speech_filename speaker turn_index) |} in
  exists w',
    try_except (_ ← synthesize_speech speech dir reply speaker turn_index voice; mret tt)
               (fun e => mret tt) w = (Ok tt, w')
    /\ environ w' = environ w /\ heap w' = heap w /\ chat_log w' = chat_log w
    /\ speech_log w' = speech_log w ++ [req]
    /\ files w' = match speech (speech_log w) req with
                  | None => files w ++ [speech_file req]
                  | Some _ => files w
                  end.
Proof.
  unfold credential. intros Hkey. cbv zeta.
  unfold try_except, synthesize_speech, mbind, M_bind, getenv. rewrite Hkey. cbn [negb].
  unfold speech_create.
  destruct (speech (speech_log w) _); eexists; repeat split; reflexivity.
Qed.

Lemma run_dialog_body_step topic (k : nat) history w hist :
  credential w = true ->
  heap w !! history = Some hist ->
  exists reply w',
    run_dialog_body chat speech dir topic (Z.of_nat k) history w
    = (Ok (length (heap w)), w')
    /\ dialog_step speech dir topic k hist reply w w'.
Proof using chat_answers.
  intros Hkey Hh. unfold run_dialog_body.
  destruct (agent_of_turn k) as (agent & -> & Hname).
  rewrite bind_run.
  destruct (generate_reply_log agent history (Some topic) 350 w hist Hkey Hh)
    as (reply & extra & w1 & -> & He & Hp & Hs & Hf & Hc & Hx & H0).
  rewrite bind_run.
  assert (Hkey1 : credential w1 = true) by (unfold credential in *; now rewrite He).
  destruct (guarded_synthesis_effect reply (name agent) (Z.of_nat k + 1)
              (default (py "alloy") (voice_map !! name agent)) w1 Hkey1)
    as (w2 & -> & He2 & Hp2 & Hc2 & Hs2 & Hf2).
  exists reply, w2. split; [reflexivity|].
  exists agent. unfold turn_speech_request. cbn [fst snd].
  rewrite <- Hname. rewrite Hs in Hs2, Hf2. rewrite Hf in Hf2.
  repeat split; try congruence.
  - exists extra. split; [congruence|exact Hx].
  - intros -> Hh0. apply H0; [exact Hh0|exact Hname].
Qed.

(** The loop of [run_dialog] keeps every property of position, world and
    history that each completed iteration keeps. *)
Lemma run_dialog_loop_invariant (P : nat -> World -> History -> Prop) topic :
  (forall k w hist reply w',
      P k w hist -> length hist = k ->
      dialog_step speech dir topic k hist reply w w' ->
      P (S k) w' (hist ++ [(speaker_of_turn k, reply)])) ->
  forall (n a : nat) history w hist,
    credential w = true ->
    heap w !! history = Some hist ->
    length hist = a ->
    P a w hist ->
    exists h' w' hist',
      for_each (List.map Z.of_nat (seq a n)) (run_dialog_body chat speech dir topic) history w
      = (Ok h', w')
      /\ heap w' !! h' = Some hist'
      /\ length hist' = (a + n)%nat
      /\ P (a + n)%nat w' hist'.
Proof using chat_answers.
  intros Hstep. induction n as [|n IH]; intros a history w hist Hkey Hh Hlen HP.
  - exists history, w, hist. rewrite Nat.add_0_r. simpl. repeat split; auto.
  - simpl seq. simpl List.map. simpl for_each. rewrite bind_run.
    destruct (run_dialog_body_step topic a history w hist Hkey Hh)
      as (reply & w1 & -> & Hs).
    pose proof Hs as (agent & _ & Henv & Hheap & _).
    assert (Hkey1 : credential w1 = true) by (unfold credential in *; now rewrite Henv).
    assert (Hh1 : heap w1 !! length (heap w) = Some (hist ++ [(speaker_of_turn a, reply)])).
    { rewrite Hheap, lookup_app_r by lia. now rewrite Nat.sub_diag. }
    destruct (IH (S a) (length (heap w)) w1 _ Hkey1 Hh1) as (h' & w' & hist' & E & L & N & A).
    + rewrite length_app. simpl. lia.
    + eapply Hstep; eauto.
    + exists h', w', hist'. replace (a + S n)%nat with (S a + n)%nat by lia.
      repeat split; auto.
Qed.

Lemma run_dialog_invariant (P : nat -> World -> History -> Prop) topic turns w :
  (forall k w hist reply w',
      P k w hist -> length hist = k ->
      dialog_step speech dir topic k hist reply w w' ->
      P (S k) w' (hist ++ [(speaker_of_turn k, reply)])) ->
  credential w = true ->
  P 0%nat (with_heap w (heap w ++ [[]])) [] ->
  exists h w' hist,
    run_dialog chat speech dir topic turns w = (Ok h, w')
    /\ heap w' !! h = Some hist
    /\ length hist = Z.to_nat turns
    /\ P (Z.to_nat turns) w' hist.
Proof using chat_answers.
  intros Hstep Hkey HP. unfold run_dialog, range. rewrite bind_run. unfold list_new at 1.
  apply (run_dialog_loop_invariant P topic Hstep (Z.to_nat turns) 0%nat _ _ []).
  - exact Hkey.
  - simpl. rewrite lookup_app_r by lia. now rewrite Nat.sub_diag.
  - reflexivity.
  - exact HP.
Qed.

Lemma for_each_app {A S} (xs ys : list A) (body : A -> S -> M S) (s0 : S) w :
  for_each (xs ++ ys) body s0 w
  = match for_each xs body s0 w with
    | (Ok s1, w1) => for_each ys body s1 w1
    | (Raise e, w1) => (Raise e, w1)
    end.
Proof.
  revert s0 w. induction xs as [|x xs IH]; intros s0 w; [reflexivity|].
  simpl. rewrite !bind_run. destruct (body x s0 w) as [[s1|e] w1]; [apply IH|reflexivity].
Qed.

End DialogEffects.

(** X10.  A dialog of [N] turns issues at least [N] and at most [2 N] completion
    requests: one per turn, and at most one rewrite request more per
    turn. *)
Theorem run_dialog_completion_requests {U : UnicodeTables} chat speech dir topic turns w :
  credential w = true ->
  (forall log req, exists c, chat log req = inr c) ->
  exists h w',
    run_dialog chat speech dir topic turns w = (Ok h, w')
    /\ (length (chat_log w) + Z.to_nat turns <= length (chat_log w'))%nat
    /\ (length (chat_log w') <= length (chat_log w) + 2 * Z.to_nat turns)%nat.
Proof.
  intros Hkey Hchat.
  destruct (run_dialog_invariant chat speech dir Hchat
              (fun k w' _ => (length (chat_log w) + k <= length (chat_log w'))%nat
                             /\ (length (chat_log w') <= length (chat_log w) + 2 * k)%nat)
              topic turns w) as (h & w' & hist & E & _ & _ & HP).
  - intros k w1 hist reply w2 [H1 H2] _ (agent & _ & _ & _ & (extra & Hc & Hx) & _).
    rewrite Hc, length_app. simpl.
    destruct Hx as [[-> _]|(text & -> & _)]; simpl; lia.
  - exact Hkey.
  - simpl. lia.
  - exists h, w'. split; [exact E|exact HP].
Qed.

Lemma run_dialog_completion_requests_witness :
  exists h w',
    run_dialog (U := basic_tables) Sample.chat Sample.speech Sample.audio_dir
      (py "Старение") 4 Sample.world = (Ok h, w')
    /\ (length (chat_log Sample.world) + Z.to_nat 4 <= length (chat_log w'))%nat
    /\ (length (chat_log w') <= length (chat_log Sample.world) + 2 * Z.to_nat 4)%nat.
Proof.
  apply run_dialog_completion_requests.
  - reflexivity.
  - intros log req. unfold Sample.chat. destruct log; eauto.
Defined.





(** X13.  A Latin letter in the returned history is always accounted for: a turn
    text has no Latin letter, or the rewrite of that very text was
    requested (and did not help). *)
Theorem run_dialog_latin_accounted {U : UnicodeTables} chat speech dir topic turns w :
  credential w = true ->
  (forall log req, exists c, chat log req = inr c) ->
  exists h w' hist,
    run_dialog chat speech dir topic turns w = (Ok h, w')
    /\ heap w' !! h = Some hist
    /\ forall speaker text,
         In (speaker, text) hist ->
         LATIN_RE_search text = false
         \/ exists agent, name agent = speaker
                          /\ In (rewrite_request text agent) (chat_log w').
Proof.
  intros Hkey Hchat.
  destruct (run_dialog_invariant chat speech dir Hchat
              (fun _ w' hist =>
                 forall speaker text,
                   In (speaker, text) hist ->
                   LATIN_RE_search text = false
                   \/ exists agent, name agent = speaker
                                    /\ In (rewrite_request text agent) (chat_log w'))
              topic turns w) as (h & w' & hist & E & Hh & _ & HP).
  - intros k w1 hist reply w2 H1 _ (agent & Hname & _ & _ & (extra & Hc & Hx) & _)
           speaker text Hin.
    apply in_app_or in Hin as [Hin|Hin]; [|destruct Hin as [Hin|[]]; injection Hin as <- <-].
    + destruct (H1 speaker text Hin) as [Hl|(a & Ha & Hr)]; [now left|].
      right. exists a. split; [exact Ha|]. rewrite Hc. apply in_or_app. now left.
    + destruct Hx as [[_ Hl]|(t & -> & [Hl| ->])]; [now left|now left|].
      right. exists agent. split; [exact Hname|].
      rewrite Hc. apply in_or_app. right. right. now left.
  - exact Hkey.
  - intros speaker text [].
  - exists h, w', hist. repeat split; assumption.
Qed.

Lemma run_dialog_latin_accounted_witness :
  exists h w' hist,
    run_dialog (U := basic_tables) Sample.chat Sample.speech Sample.audio_dir
      (py "Старение") 4 Sample.world = (Ok h, w')
    /\ heap w' !! h = Some hist
    /\ forall speaker text,
         In (speaker, text) hist ->
         LATIN_RE_search text = false
         \/ exists agent, name agent = speaker
                          /\ In (rewrite_request text agent) (chat_log w').
Proof.
  apply run_dialog_latin_accounted.
  - reflexivity.
  - intros log req. unfold Sample.chat. destruct log; eauto.
Defined.

(** X14.  The first turn of a dialog is the expert's, and its text starts with
    the preface, a space and the opening phrase, or else has no Latin
    letter (it is then an accepted rewrite). *)
Theorem run_dialog_first_turn {U : UnicodeTables} chat speech dir topic turns w :
  (1 <= turns)%Z ->
  credential w = true ->
  (forall log req, exists c, chat log req = inr c) ->
  exists h w' hist text,
    run_dialog chat speech dir topic turns w = (Ok h, w')
    /\ heap w' !! h = Some hist
    /\ hist !! 0%nat = Some (IRINA_NAME, text)
    /\ (startswith text PREFACED_OPENING = true \/ LATIN_RE_search text = false).
Proof.
  intros Hturns Hkey Hchat.
  destruct (run_dialog_invariant chat speech dir Hchat
              (fun k _ hist =>
                 (1 <= k)%nat ->
                 exists text,
                   hist !! 0%nat = Some (IRINA_NAME, text)
                   /\ (startswith text PREFACED_OPENING = true
                       \/ LATIN_RE_search text = false))
              topic turns w) as (h & w' & hist & E & Hh & _ & HP).
  - intros k w1 hist reply w2 H1 Hlen (agent & _ & _ & _ & _ & _ & _ & H0) _.
    destruct k as [|k].
    + destruct hist; [|discriminate Hlen]. exists reply. split; [reflexivity|].
      now apply H0.
    + destruct H1 as (text & Ht & Hp); [lia|]. exists text. split; [|exact Hp].
      now apply lookup_app_l_Some.
  - exact Hkey.
  - intros Hk. lia.
  - destruct HP as (text & Ht & Hp); [lia|]. exists h, w', hist, text.
    repeat split; assumption.
Qed.

Lemma run_dialog_first_turn_witness :
  exists h w' hist text,
    run_dialog (U := basic_tables) Sample.plain_chat Sample.speech Sample.audio_dir
      (py "Старение") 4 Sample.world = (Ok h, w')
    /\ heap w' !! h = Some hist
    /\ hist !! 0%nat = Some (IRINA_NAME, text)
    /\ (startswith text PREFACED_OPENING = true \/ LATIN_RE_search text = false).
Proof.
  apply run_dialog_first_turn.
  - lia.
  - reflexivity.
  - intros log req. unfold Sample.plain_chat. eauto.
Defined.

(** X15.  A longer dialog begins with the shorter one: with the same services
    and from the same world, the history of [turns + more] turns starts
    with the history of [turns] turns.  No turn is changed once it is in
    the history. *)
Theorem run_dialog_extends {U : UnicodeTables} chat speech dir topic turns more w :
  (0 <= turns)%Z -> (0 <= more)%Z ->
  credential w = true ->
  (forall log req, exists c, chat log req = inr c) ->
  exists h1 w1 hist1 h2 w2 hist2,
    run_dialog chat speech dir topic turns w = (Ok h1, w1)
    /\ heap w1 !! h1 = Some hist1
    /\ run_dialog chat speech dir topic (turns + more) w = (Ok h2, w2)
    /\ heap w2 !! h2 = Some hist2
    /\ hist1 `prefix_of` hist2.
Proof.
  intros Hturns Hmore Hkey Hchat.
  destruct (run_dialog_invariant chat speech dir Hchat
              (fun _ w' _ => environ w' = environ w) topic turns w)
    as (h1 & w1 & hist1 & E1 & Hh1 & Hlen1 & Henv).
  { intros k wa hist reply wb H _ (agent & _ & He & _). congruence. }
  { exact Hkey. }
  { reflexivity. }
  assert (Hkey1 : credential w1 = true) by (unfold credential in *; now rewrite Henv).
  destruct (run_dialog_loop_invariant chat speech dir Hchat
              (fun _ _ hist => hist1 `prefix_of` hist) topic) with
    (n := Z.to_nat more) (a := Z.to_nat turns) (history := h1) (w := w1) (hist := hist1)
    as (h2 & w2 & hist2 & E2 & Hh2 & _ & Hpre); auto.
  { intros k wa hist reply wb H _ _. now apply prefix_app_r. }
  exists h1, w1, hist1, h2, w2, hist2. repeat split; auto.
  unfold run_dialog in *. rewrite bind_run in *. unfold list_new in *.
  unfold range in *. rewrite Z2Nat.inj_add by lia.
  rewrite seq_app, map_app, for_each_app. rewrite E1. exact E2.
Qed.

Lemma run_dialog_extends_witness :
  exists h1 w1 hist1 h2 w2 hist2,
    run_dialog (U := basic_tables) Sample.chat Sample.speech Sample.audio_dir
      (py "Старение") 2 Sample.world = (Ok h1, w1)
    /\ heap w1 !! h1 = Some hist1
    /\ run_dialog (U := basic_tables) Sample.chat Sample.speech Sample.audio_dir
         (py "Старение") (2 + 2) Sample.world = (Ok h2, w2)
    /\ heap w2 !! h2 = Some hist2
    /\ hist1 `prefix_of` hist2.
Proof.
  apply run_dialog_extends.
  - lia.
  - lia.
  - reflexivity.
  - intros log req. unfold Sample.chat. destruct log; eauto.
Defined.

(** ** The order of strings and the selection of audio files *)

Lemma str_compare_refl (a : pystr) : str_compare a a = Eq.
Proof. induction a as [|x a IH]; simpl; [reflexivity|]. now rewrite N.compare_refl. Qed.

Lemma str_compare_eq (a : pystr) : forall b, str_compare a b = Eq -> a = b.
Proof.
  induction a as [|x a IH]; intros [|y b] H; simpl in H; try discriminate; [reflexivity|].
  destruct (x ?= y) eqn:E; try discriminate.
  apply N.compare_eq in E. subst y. f_equal. now apply IH.
Qed.

Lemma str_compare_antisym (a : pystr) :
  forall b, str_compare b a = CompOpp (str_compare a b).
Proof.
  induction a as [|x a IH]; intros [|y b]; simpl; try reflexivity.
  rewrite (N.compare_antisym x y). destruct (x ?= y); simpl; auto.
Qed.

Lemma str_compare_lt_trans (a : pystr) :
  forall b c, str_compare a b = Lt -> str_compare b c = Lt -> str_compare a c = Lt.
Proof.
  induction a as [|x a IH]; intros [|y b] [|z c] H1 H2; simpl in *;
    try discriminate; try reflexivity.
  destruct (N.compare_spec x y), (N.compare_spec y z); try discriminate; subst.
  - rewrite N.compare_refl. eapply IH; eauto.
  - now apply N.compare_lt_iff in H0 as ->.
  - now apply N.compare_lt_iff in H as ->.
  - assert (Hxz : x < z) by lia. now apply N.compare_lt_iff in Hxz as ->.
Qed.

#[export] Instance str_le_total : Total str_le.
Proof.
  intros a b. unfold str_le. rewrite (str_compare_antisym a b).
  destruct (str_compare a b); simpl; [left|left|right]; congruence.
Qed.

#[export] Instance str_le_trans : Transitive str_le.
Proof.
  intros a b c. unfold str_le. intros H1 H2.
  destruct (str_compare a b) eqn:E1; [|clear H1|contradiction].
  - apply str_compare_eq in E1. now subst b.
  - destruct (str_compare b c) eqn:E2; [|clear H2|contradiction].
    + apply str_compare_eq in E2. subst c. rewrite E1. discriminate.
    + rewrite (str_compare_lt_trans a b c E1 E2). discriminate.
Qed.

#[export] Instance str_le_antisymm : AntiSymm (=) str_le.
Proof.
  intros a b. unfold str_le. rewrite (str_compare_antisym a b).
  destruct (str_compare a b) eqn:E; simpl; intros H1 H2;
    [now apply str_compare_eq|contradiction|contradiction].
Qed.

Lemma sorted_of_sorted (l globbed : list pystr) :
  Sorted str_le l -> globbed ≡ₚ l -> sorted globbed = l.
Proof.
  intros Hs Hp. unfold sorted. apply (Sorted_unique str_le).
  - apply Sorted_merge_sort. apply _.
  - exact Hs.
  - now rewrite merge_sort_Permutation.
Qed.

Lemma filter_sublist {A} (f : A -> bool) (l : list A) : List.filter f l `sublist_of` l.
Proof.
  induction l as [|x l IH]; cbn [List.filter]; [constructor|].
  destruct (f x); [now apply sublist_skip|now apply sublist_cons].
Qed.

(** X16.  The selected audio files are in the order of their names, each begins
    with three digits (with all of its characters digits, and at least
    one, when the name is shorter), none is selected more often than the
    glob yields it, and a positive limit bounds their number. *)
Theorem select_audio_files_sorted char_isdigit MAX_AUDIO_FILES (globbed : list pystr) :
  let audio_files := select_audio_files char_isdigit MAX_AUDIO_FILES globbed in
  StronglySorted str_le audio_files
  /\ Forall (fun name => str_isdigit char_isdigit (take 3 name) = true) audio_files
  /\ audio_files ⊆+ globbed
  /\ ((0 < MAX_AUDIO_FILES)%Z -> (Z.of_nat (length audio_files) <= MAX_AUDIO_FILES)%Z).
Proof.
  cbv zeta. unfold select_audio_files.
  set (kept := List.filter (fun name => str_isdigit char_isdigit (take 3 name))
                 (sorted globbed)).
  assert (S1 : StronglySorted str_le (sorted kept))
    by (apply StronglySorted_merge_sort; apply _).
  assert (F0 : Forall (fun name => str_isdigit char_isdigit (take 3 name) = true) kept).
  { apply Forall_forall. intros x Hx. apply list_elem_of_In in Hx.
    now apply List.filter_In in Hx. }
  assert (F1 : Forall (fun name => str_isdigit char_isdigit (take 3 name) = true)
                 (sorted kept)).
  { unfold sorted. now rewrite merge_sort_Permutation. }
  assert (P1 : sorted kept ⊆+ globbed).
  { unfold sorted at 1. rewrite merge_sort_Permutation.
    transitivity (sorted globbed).
    - subst kept. apply sublist_submseteq, filter_sublist.
    - unfold sorted. now rewrite merge_sort_Permutation. }
  destruct (negb (MAX_AUDIO_FILES =? 0)%Z && (0 <? MAX_AUDIO_FILES)%Z) eqn:E.
  - split; [|split; [|split]].
    + rewrite <- (take_drop (Z.to_nat MAX_AUDIO_FILES) (sorted kept)) in S1.
      now apply StronglySorted_app_1_l in S1.
    + now apply Forall_take.
    + etransitivity; [|exact P1]. apply sublist_submseteq, sublist_take.
    + intros _. rewrite length_take. lia.
  - split; [exact S1|]. split; [exact F1|]. split; [exact P1|].
    intros Hpos. exfalso.
    assert (Hz : (MAX_AUDIO_FILES =? 0)%Z = false) by (apply Z.eqb_neq; lia).
    assert (Hl : (0 <? MAX_AUDIO_FILES)%Z = true) by (apply Z.ltb_lt; lia).
    rewrite Hz, Hl in E. discriminate E.
Qed.

Section DialogFiles.
Context {U : UnicodeTables}.
Variable char_isdigit : char -> bool.
Hypothesis ascii_digits : forall c, is_ascii_digit c = true -> char_isdigit c = true.
Variable speaker_at : nat -> pystr.

Lemma turn_filename_digits (k : nat) :
  (k < 999)%nat ->
  turn_filename speaker_at k
  = three_digits (N.of_nat (k + 1)) ++ py "_" ++ _simplify_speaker_name (speaker_at k)
    ++ py ".mp3".
Proof.
  intros Hk. unfold turn_filename, speech_filename.
  rewrite format_03d_below_1000 by lia. do 2 f_equal. lia.
Qed.

Lemma three_digits_ascii (n : N) :
  n <= 999 -> forallb is_ascii_digit (three_digits n) = true.
Proof.
  intros Hn. destruct (three_digits_value n) as (E & Ht & Hu).
  unfold three_digits, is_ascii_digit. cbn [forallb].
  set (h := n / 100) in *. set (t := (n / 10) mod 10) in *. set (u := n mod 10) in *.
  clearbody h t u.
  repeat (apply andb_true_iff; split); try reflexivity;
    (apply N.leb_le; lia).
Qed.

Lemma turn_filename_selected (k : nat) :
  (k < 999)%nat ->
  str_isdigit char_isdigit (take 3 (turn_filename speaker_at k)) = true.
Proof using ascii_digits.
  intros Hk. rewrite turn_filename_digits by exact Hk.
  change (take 3 (three_digits ?n ++ ?r)) with (three_digits n).
  unfold str_isdigit. apply andb_true_iff. split; [reflexivity|].
  pose proof (three_digits_ascii (N.of_nat (k + 1)) ltac:(lia)) as H.
  rewrite forallb_forall in *. intros c Hc. now apply ascii_digits, H.
Qed.

Lemma turn_filename_lt (k k' : nat) :
  (k < k')%nat -> (k' < 999)%nat ->
  str_compare (turn_filename speaker_at k) (turn_filename speaker_at k') = Lt.
Proof.
  intros Hlt Hk'. rewrite !turn_filename_digits by lia.
  apply str_compare_app_lt; [reflexivity|]. apply three_digits_lt. lia.
Qed.

Lemma turn_filenames_sorted (n : nat) :
  forall a, (a + n <= 999)%nat ->
            Sorted str_le (List.map (turn_filename speaker_at) (seq a n)).
Proof.
  induction n as [|n IH]; intros a Ha; simpl; [constructor|].
  constructor; [apply IH; lia|].
  destruct n as [|n]; simpl; constructor.
  unfold str_le. rewrite turn_filename_lt by lia. discriminate.
Qed.

Lemma filter_all {A} (f : A -> bool) (l : list A) :
  Forall (fun x => f x = true) l -> List.filter f l = l.
Proof.
  induction 1 as [|x l Hx _ IH]; simpl; [reflexivity|]. now rewrite Hx, IH.
Qed.

End DialogFiles.

(** X17.  The assembly takes the audio files of a dialog in turn order: when the
    audio directory holds the files of the turns 1 to N of a dialog of at
    most 999 turns, in whatever order the glob yields them, and no limit is
    set, the selected files are those files in turn order.  The decimal
    digits 0 to 9 are taken to be digits. *)
Theorem select_audio_files_of_dialog {U : UnicodeTables} char_isdigit
    (speaker_at : nat -> pystr) (N : nat) (globbed : list pystr) :
  (N <= 999)%nat ->
  (forall c, is_ascii_digit c = true -> char_isdigit c = true) ->
  globbed ≡ₚ List.map (turn_filename speaker_at) (seq 0 N) ->
  select_audio_files char_isdigit 0 globbed = List.map (turn_filename speaker_at) (seq 0 N).
Proof.
  intros HN Hdig Hperm. unfold select_audio_files.
  assert (Hs : Sorted str_le (List.map (turn_filename speaker_at) (seq 0 N)))
    by (apply turn_filenames_sorted; lia).
  rewrite (sorted_of_sorted _ globbed Hs Hperm).
  rewrite filter_all.
  - rewrite (sorted_of_sorted _ _ Hs); reflexivity.
  - apply Forall_forall. intros x Hx. apply list_elem_of_In, in_map_iff in Hx
      as (k & <- & Hk). apply in_seq in Hk.
    apply turn_filename_selected; [exact Hdig|lia].
Qed.

Lemma select_audio_files_of_dialog_witness :
  select_audio_files is_ascii_digit 0
    [ turn_filename (U := basic_tables) speaker_of_turn 2;
      turn_filename (U := basic_tables) speaker_of_turn 0;
      turn_filename (U := basic_tables) speaker_of_turn 1 ]
  = List.map (turn_filename (U := basic_tables) speaker_of_turn) (seq 0 3).
Proof.
  apply (select_audio_files_of_dialog (U := basic_tables) is_ascii_digit speaker_of_turn 3).
  - lia.
  - auto.
  - simpl. etransitivity; [apply Permutation_swap|]. simpl.
    apply Permutation_skip, Permutation_swap.
Defined.

(** ** What the assembly loop adds *)

Section AssemblyOrder.
Context {U : UnicodeTables}.
Variable speech : list SpeechRequest -> SpeechRequest -> option Exn.
Variable AudioFileClip : World -> pystr -> Exn + Q.
Variable ImageClip : World -> pystr -> option Exn.
Variable path_exists : World -> pystr -> bool.
Variables AUDIO_DIR AVATARS_DIR TMP_DIR ASSETS_DIR : pystr.

Lemma avatar_map_recognized (audio_file : pystr) :
  recognized audio_file
  = bool_decide (is_Some (avatar_map AVATARS_DIR !! detect_speaker_from_filename audio_file)).
Proof.
  unfold recognized, avatar_map, str_eqb.
  set (k := detect_speaker_from_filename audio_file).
  destruct (decide (k = py "irina")) as [->|Hi].
  { rewrite lookup_insert_eq. reflexivity. }
  rewrite (bool_decide_eq_false_2 _ Hi). cbn [orb].
  rewrite lookup_insert_ne by congruence.
  destruct (decide (k = py "alexey")) as [->|Ha].
  { rewrite lookup_insert_eq. reflexivity. }
  rewrite (bool_decide_eq_false_2 _ Ha).
  rewrite lookup_insert_ne by congruence. rewrite lookup_empty.
  symmetry. apply bool_decide_eq_false_2. intros [x Hx]. discriminate Hx.
Qed.

Lemma turn_audio_files_app (a b : list Clip) :
  turn_audio_files (a ++ b) = turn_audio_files a ++ turn_audio_files b.
Proof. unfold turn_audio_files. apply omap_app. Qed.

Lemma turn_audio_files_avatar c image audio_file (l : list Clip) :
  origin c = avatar_clip image audio_file ->
  turn_audio_files (c :: l) = audio_file :: turn_audio_files l.
Proof. destruct c as [o v a d]. simpl. intros ->. reflexivity. Qed.

Lemma turn_audio_files_speaker_intro c k (l : list Clip) :
  origin c = speaker_intro k -> turn_audio_files (c :: l) = turn_audio_files l.
Proof. destruct c as [o v a d]. simpl. intros ->. reflexivity. Qed.

Lemma turn_audio_files_topic_intro c t (l : list Clip) :
  origin c = topic_intro t -> turn_audio_files (c :: l) = turn_audio_files l.
Proof. destruct c as [o v a d]. simpl. intros ->. reflexivity. Qed.

Lemma main_loop_adds (audio_files : list pystr) :
  forall clips introduced w,
    exists exit more w',
      main_loop speech AudioFileClip ImageClip path_exists
        AUDIO_DIR AVATARS_DIR TMP_DIR ASSETS_DIR audio_files clips introduced w
      = (Ok (exit, clips ++ more), w')
      /\ Forall (fun c => forall t, origin c <> topic_intro t) more
      /\ turn_audio_files more `sublist_of` List.filter recognized audio_files.
Proof.
  induction audio_files as [|audio_file rest IH]; intros clips introduced w.
  { exists Finished, [], w. rewrite app_nil_r. repeat split; constructor. }
  cbn [main_loop List.filter]. cbv zeta.
  rewrite avatar_map_recognized.
  set (k := detect_speaker_from_filename audio_file).
  destruct (avatar_map AVATARS_DIR !! k) as [avatar_path|] eqn:Hav.
  2:{ rewrite (bool_decide_eq_false_2 (is_Some None)) by (intros [x Hx]; discriminate Hx).
      apply IH. }
  rewrite (bool_decide_eq_true_2 (is_Some (Some avatar_path))) by (eexists; reflexivity).
  assert (Hskip : forall clips0 introduced0 w0,
             exists exit more w',
               main_loop speech AudioFileClip ImageClip path_exists
                 AUDIO_DIR AVATARS_DIR TMP_DIR ASSETS_DIR rest clips0 introduced0 w0
               = (Ok (exit, clips0 ++ more), w')
               /\ Forall (fun c => forall t, origin c <> topic_intro t) more
               /\ turn_audio_files more `sublist_of` audio_file :: List.filter recognized rest).
  { intros clips0 introduced0 w0.
    destruct (IH clips0 introduced0 w0) as (exit & more & w' & E & F & S).
    exists exit, more, w'. repeat split; auto. now apply sublist_cons. }
  rewrite bind_run.
  destruct (attempt_cases (open_audio AudioFileClip (path_join AUDIO_DIR audio_file)) w)
    as [(d & w1 & _ & ->)|(w1 & ->)]; [|apply Hskip].
  assert (Hturn : forall clips0 introduced0 w0,
             exists exit more w',
               (made ← attempt (make_avatar_clip AudioFileClip ImageClip AUDIO_DIR
                                  avatar_path audio_file);
                match made with
                | Some clip =>
                    main_loop speech AudioFileClip ImageClip path_exists
                      AUDIO_DIR AVATARS_DIR TMP_DIR ASSETS_DIR rest (clips0 ++ [clip])
                      introduced0
                | None =>
                    main_loop speech AudioFileClip ImageClip path_exists
                      AUDIO_DIR AVATARS_DIR TMP_DIR ASSETS_DIR rest clips0 introduced0
                end) w0 = (Ok (exit, clips0 ++ more), w')
               /\ Forall (fun c => forall t, origin c <> topic_intro t) more
               /\ turn_audio_files more
                    `sublist_of` audio_file :: List.filter recognized rest).
  { intros clips0 introduced0 w0. rewrite bind_run.
    destruct (attempt_cases (make_avatar_clip AudioFileClip ImageClip AUDIO_DIR
                               avatar_path audio_file) w0)
      as [(clip & w2 & Hmade & ->)|(w2 & ->)]; [|apply Hskip].
    apply avatar_clip_origin in Hmade.
    destruct (IH (clips0 ++ [clip]) introduced0 w2) as (exit & more & w' & E & F & S).
    exists exit, (clip :: more), w'. split; [|split].
    - rewrite E. now rewrite <- app_assoc.
    - constructor; [|exact F]. intros t. rewrite Hmade. discriminate.
    - rewrite (turn_audio_files_avatar _ _ _ _ Hmade). now apply sublist_skip. }
  case_bool_decide as Hintro; [|apply Hturn].
  rewrite bind_run.
  destruct (attempt_cases (make_speaker_intro_clip speech AudioFileClip ImageClip
                             path_exists TMP_DIR ASSETS_DIR k avatar_path) w1)
    as [(intro & w2 & Hmade & ->)|(w2 & ->)].
  - apply speaker_intro_clip_origin in Hmade.
    destruct (Hturn (clips ++ [intro]) (<[k := true]> introduced) w2)
      as (exit & more & w' & E & F & S).
    exists exit, (intro :: more), w'. split; [|split].
    + rewrite E. now rewrite <- app_assoc.
    + constructor; [|exact F]. intros t. rewrite Hmade. discriminate.
    + now rewrite (turn_audio_files_speaker_intro _ _ _ Hmade).
  - exists Returned, [], w2. rewrite app_nil_r. split; [reflexivity|].
    split; [constructor|apply sublist_nil_l].
Qed.

End AssemblyOrder.

(** X18.  The turn clips follow the order of the audio files: their audio files,
    in clip order, are a subsequence of the audio files from which a
    speaker is inferred (files of unknown speakers get no clip, and no file
    gets two).  The first clip is the topic introduction and no other clip
    is one. *)
Theorem main_clips_follow_audio_files {U : UnicodeTables}
    speech AudioFileClip ImageClip path_exists
    (AUDIO_DIR AVATARS_DIR TMP_DIR ASSETS_DIR topic : pystr)
    (audio_files : list pystr) (w : World) :
  exists exit clips w',
    main_clips speech AudioFileClip ImageClip path_exists
      AUDIO_DIR AVATARS_DIR TMP_DIR ASSETS_DIR topic audio_files w
    = (Ok (exit, clips), w')
    /\ turn_audio_files clips `sublist_of` List.filter recognized audio_files
    /\ (clips = [] /\ exit = Returned
        \/ exists first rest,
             clips = first :: rest
             /\ origin first = topic_intro topic
             /\ Forall (fun c => forall t, origin c <> topic_intro t) rest).
Proof.
  assert (Hnone : forall w1 : World,
             exists exit clips w',
               (Ok (Returned, @nil Clip), w1) = (Ok (exit, clips), w')
               /\ turn_audio_files clips `sublist_of` List.filter recognized audio_files
               /\ (clips = [] /\ exit = Returned
                   \/ exists first rest,
                        clips = first :: rest
                        /\ origin first = topic_intro topic
                        /\ Forall (fun c => forall t, origin c <> topic_intro t) rest)).
  { intros w1. exists Returned, [], w1. split; [reflexivity|].
    split; [apply sublist_nil_l|]. left. now split. }
  unfold main_clips.
  destruct (negb (match audio_files with [] => false | _ => true end)); [apply Hnone|].
  destruct (negb (forallb _ _)); [apply Hnone|].
  unfold make_clips. rewrite bind_run.
  destruct (attempt_cases (make_topic_intro_clip speech AudioFileClip ImageClip path_exists
                             TMP_DIR ASSETS_DIR topic) w)
    as [(clip & w1 & Hmade & ->)|(w1 & ->)].
  - apply topic_intro_clip_origin in Hmade.
    destruct (main_loop_adds speech AudioFileClip ImageClip path_exists
                AUDIO_DIR AVATARS_DIR TMP_DIR ASSETS_DIR audio_files [clip]
                introduced_init w1) as (exit & more & w' & E & F & S).
    exists exit, (clip :: more), w'. split; [exact E|]. split.
    + now rewrite (turn_audio_files_topic_intro _ _ _ Hmade).
    + right. exists clip, more. repeat split; assumption.
  - apply Hnone.
Qed.



Section AssemblyComplete.
Context {U : UnicodeTables}.
Variable speech : list SpeechRequest -> SpeechRequest -> option Exn.
Variable AudioFileClip : World -> pystr -> Exn + Q.
Variable ImageClip : World -> pystr -> option Exn.
Variable path_exists : World -> pystr -> bool.
Variables AUDIO_DIR AVATARS_DIR TMP_DIR ASSETS_DIR : pystr.
Hypothesis speech_ok : forall log req, speech log req = None.
Hypothesis audio_ok : forall w path, exists d, AudioFileClip w path = inr d.
Hypothesis image_ok : forall w path, ImageClip w path = None.

Lemma attempt_ok {A} (m : M A) w a w' :
  m w = (Ok a, w') -> attempt m w = (Ok (Some a), w').
Proof. intros H. unfold attempt, try_except. rewrite bind_run, H. reflexivity. Qed.

Lemma tts_to_file_ok text out_path voice w :
  credential w = true ->
  exists w', _tts_to_file speech text out_path voice w = (Ok out_path, w')
             /\ credential w' = true.
Proof using speech_ok.
  unfold credential. intros Hkey.
  unfold _tts_to_file. rewrite bind_run. unfold getenv at 1. rewrite Hkey. cbn [negb].
  rewrite bind_run. unfold speech_create. rewrite speech_ok.
  eexists. split; [reflexivity|exact Hkey].
Qed.

Lemma open_audio_ok path w : exists d, open_audio AudioFileClip path w = (Ok d, w).
Proof using audio_ok.
  unfold open_audio. destruct (audio_ok w path) as [d ->]. eauto.
Qed.

Lemma make_cover_bg_ok d w :
  exists v, _make_cover_bg ImageClip path_exists ASSETS_DIR d w = (Ok v, w).
Proof using image_ok.
  unfold _make_cover_bg. destruct (negb (path_exists w _)); [eauto|].
  unfold _fit_image_on_bg. rewrite image_ok. eauto.
Qed.

Lemma make_avatar_clip_ok image audio_file w :
  exists c, make_avatar_clip AudioFileClip ImageClip AUDIO_DIR image audio_file w = (Ok c, w)
            /\ origin c = avatar_clip image audio_file.
Proof using audio_ok image_ok.
  unfold make_avatar_clip. rewrite bind_run.
  destruct (open_audio_ok (path_join AUDIO_DIR audio_file) w) as [d ->].
  rewrite bind_run. unfold _fit_image_on_bg. rewrite image_ok. eauto.
Qed.

Lemma make_speaker_intro_clip_ok k avatar_path w :
  credential w = true ->
  exists c w',
    make_speaker_intro_clip speech AudioFileClip ImageClip path_exists TMP_DIR ASSETS_DIR
      k avatar_path w = (Ok c, w')
    /\ credential w' = true /\ origin c = speaker_intro k.
Proof using speech_ok audio_ok image_ok.
  intros Hkey. unfold make_speaker_intro_clip.
  destruct (if str_eqb k (py "irina") then _ else _) as [text fname].
  rewrite bind_run.
  destruct (tts_to_file_ok text (path_join TMP_DIR fname) NEUTRAL_VOICE w Hkey)
    as (w1 & -> & Hkey1).
  rewrite bind_run. destruct (open_audio_ok (path_join TMP_DIR fname) w1) as [d ->].
  rewrite bind_run. destruct (make_cover_bg_ok d w1) as [v ->].
  eexists _, w1. repeat split; auto.
Qed.

Lemma make_topic_intro_clip_ok topic w :
  credential w = true ->
  exists c w',
    make_topic_intro_clip speech AudioFileClip ImageClip path_exists TMP_DIR ASSETS_DIR
      topic w = (Ok c, w')
    /\ credential w' = true /\ origin c = topic_intro topic.
Proof using speech_ok audio_ok image_ok.
  intros Hkey. unfold make_topic_intro_clip. rewrite bind_run.
  match goal with |- context [_tts_to_file _ ?t ?o ?v w] =>
    destruct (tts_to_file_ok t o v w Hkey) as (w1 & -> & Hkey1) end.
  rewrite bind_run.
  match goal with |- context [open_audio _ ?p w1] =>
    destruct (open_audio_ok p w1) as [d ->] end.
  rewrite bind_run. destruct (make_cover_bg_ok d w1) as [v ->].
  eexists _, w1. repeat split; auto.
Qed.

Lemma main_loop_complete (audio_files : list pystr) :
  forall clips introduced w,
    credential w = true ->
    exists more w',
      main_loop speech AudioFileClip ImageClip path_exists
        AUDIO_DIR AVATARS_DIR TMP_DIR ASSETS_DIR audio_files clips introduced w
      = (Ok (Finished, clips ++ more), w')
      /\ turn_audio_files more = List.filter recognized audio_files.
Proof using speech_ok audio_ok image_ok.
  induction audio_files as [|audio_file rest IH]; intros clips introduced w Hkey.
  { exists [], w. rewrite app_nil_r. now split. }
  cbn [main_loop List.filter]. cbv zeta.
  rewrite (avatar_map_recognized AVATARS_DIR).
  set (k := detect_speaker_from_filename audio_file).
  destruct (avatar_map AVATARS_DIR !! k) as [avatar_path|] eqn:Hav.
  2:{ rewrite (bool_decide_eq_false_2 (is_Some None)) by (intros [x Hx]; discriminate Hx).
      now apply IH. }
  rewrite (bool_decide_eq_true_2 (is_Some (Some avatar_path))) by (eexists; reflexivity).
  rewrite bind_run.
  destruct (open_audio_ok (path_join AUDIO_DIR audio_file) w) as [d Hd].
  rewrite (attempt_ok _ _ _ _ Hd).
  assert (Hturn : forall clips0 introduced0 w0,
             credential w0 = true ->
             exists more w',
               (made ← attempt (make_avatar_clip AudioFileClip ImageClip AUDIO_DIR
                                  avatar_path audio_file);
                match made with
                | Some clip =>
                    main_loop speech AudioFileClip ImageClip path_exists
                      AUDIO_DIR AVATARS_DIR TMP_DIR ASSETS_DIR rest (clips0 ++ [clip])
                      introduced0
                | None =>
                    main_loop speech AudioFileClip ImageClip path_exists
                      AUDIO_DIR AVATARS_DIR TMP_DIR ASSETS_DIR rest clips0 introduced0
                end) w0 = (Ok (Finished, clips0 ++ more), w')
               /\ turn_audio_files more = audio_file :: List.filter recognized rest).
  { intros clips0 introduced0 w0 Hkey0. rewrite bind_run.
    destruct (make_avatar_clip_ok avatar_path audio_file w0) as (clip & Hmade & Ho).
    rewrite (attempt_ok _ _ _ _ Hmade).
    destruct (IH (clips0 ++ [clip]) introduced0 w0 Hkey0) as (more & w' & E & S).
    exists (clip :: more), w'. split.
    - rewrite E. now rewrite <- app_assoc.
    - rewrite (turn_audio_files_avatar _ _ _ _ Ho). now rewrite S. }
  case_bool_decide as Hintro; [|now apply Hturn].
  rewrite bind_run.
  destruct (make_speaker_intro_clip_ok k avatar_path w Hkey) as (intro & w1 & Hmade & Hkey1 & Ho).
  rewrite (attempt_ok _ _ _ _ Hmade).
  destruct (Hturn (clips ++ [intro]) (<[k := true]> introduced) w1 Hkey1)
    as (more & w' & E & S).
  exists (intro :: more), w'. split.
  - rewrite E. now rewrite <- app_assoc.
  - now rewrite (turn_audio_files_speaker_intro _ _ _ Ho).
Qed.

End AssemblyComplete.

(** X20.  When at least one audio file is selected, the images of both
    avatars exist and nothing fails (a credential is set, the speech
    service and the opening of audio and image files succeed), [main]
    reaches the end of its loop, and the turn clips are one for every audio
    file from which a speaker is inferred, in the order of the audio
    files. *)
Theorem main_clips_complete {U : UnicodeTables}
    speech AudioFileClip ImageClip path_exists
    (AUDIO_DIR AVATARS_DIR TMP_DIR ASSETS_DIR topic : pystr)
    (audio_files : list pystr) (w : World) :
  audio_files <> [] ->
  (forall k path, avatar_map AVATARS_DIR !! k = Some path -> path_exists w path = true) ->
  credential w = true ->
  (forall log req, speech log req = None) ->
  (forall w path, exists d, AudioFileClip w path = inr d) ->
  (forall w path, ImageClip w path = None) ->
  exists clips w',
    main_clips speech AudioFileClip ImageClip path_exists
      AUDIO_DIR AVATARS_DIR TMP_DIR ASSETS_DIR topic audio_files w
    = (Ok (Finished, clips), w')
    /\ turn_audio_files clips = List.filter recognized audio_files.
Proof.
  intros Hfiles Havatars Hkey Hs Ha Hi. unfold main_clips.
  destruct audio_files as [|audio_file rest]; [contradiction|]. cbn [negb].
  assert (Hex : forallb (fun kp : pystr * pystr => path_exists w (snd kp))
                  (map_to_list (avatar_map AVATARS_DIR)) = true).
  { apply forallb_forall. intros [k path] Hin. apply Havatars with k.
    apply elem_of_map_to_list. now apply list_elem_of_In. }
  rewrite Hex. cbn [negb].
  unfold make_clips. rewrite bind_run.
  destruct (make_topic_intro_clip_ok speech AudioFileClip ImageClip path_exists
              TMP_DIR ASSETS_DIR Hs Ha Hi topic w Hkey) as (clip & w1 & Hmade & Hkey1 & Ho).
  rewrite (attempt_ok _ _ _ _ Hmade).
  destruct (main_loop_complete speech AudioFileClip ImageClip path_exists
              AUDIO_DIR AVATARS_DIR TMP_DIR ASSETS_DIR Hs Ha Hi (audio_file :: rest) [clip]
              introduced_init w1 Hkey1) as (more & w' & E & S).
  exists (clip :: more), w'. split; [exact E|].
  now rewrite (turn_audio_files_topic_intro _ _ _ Ho).
Qed.

Lemma main_clips_complete_witness :
  exists clips w',
    main_clips (U := basic_tables) Sample.always_speech Sample.audio_clip
      Sample.image_clip Sample.avatars_only (py "audio") (py "avatars") (py "video/_tmp")
      (py "assets") (py "Старение") Sample.audio_files Sample.world
    = (Ok (Finished, clips), w')
    /\ turn_audio_files clips = List.filter (recognized (U := basic_tables)) Sample.audio_files.
Proof.
  apply main_clips_complete.
  - discriminate.
  - intros k path H. unfold avatar_map in H.
    apply lookup_insert_Some in H as [[_ <-]|[_ H]]; [reflexivity|].
    apply lookup_insert_Some in H as [[_ <-]|[_ H]]; [reflexivity|].
    rewrite lookup_empty in H. discriminate H.
  - reflexivity.
  - reflexivity.
  - intros w path. unfold Sample.audio_clip. eauto.
  - reflexivity.
Defined.

(** ** A quoted assignment in a .env file *)

Lemma dropwhile_keep p (s : pystr) : p (hd 0 s) = false -> dropwhile p s = s.
Proof. destruct s as [|c s]; simpl; [reflexivity|]. now intros ->. Qed.

Lemma strip_chars_keep chars (s : pystr) :
  existsb (N.eqb (hd 0 s)) chars = false ->
  existsb (N.eqb (List.last s 0)) chars = false ->
  strip_chars chars s = s.
Proof.
  intros H1 H2. unfold strip_chars.
  rewrite (dropwhile_keep _ s) by exact H1.
  rewrite dropwhile_keep; [apply rev_involutive|].
  destruct s as [|c s] using rev_ind; [exact H1|].
  rewrite rev_app_distr. simpl. now rewrite last_last in H2.
Qed.

Lemma strip_chars_quoted q (v : pystr) :
  q <> hd 0 v -> q <> List.last v 0 -> q <> 0 ->
  strip_chars [q] (q :: v ++ [q]) = v.
Proof.
  intros H1 H2 H0. unfold strip_chars.
  assert (P : forall c, c <> q -> existsb (N.eqb c) [q] = false).
  { intros c Hc. simpl. rewrite orb_false_r. now apply N.eqb_neq. }
  assert (Q : existsb (N.eqb q) [q] = true) by (simpl; now rewrite N.eqb_refl).
  cbn [dropwhile]. rewrite Q.
  destruct v as [|c v] using rev_ind.
  - simpl. now rewrite N.eqb_refl.
  - clear IHv. rewrite last_last in H2.
    assert (E : dropwhile (fun c0 => existsb (N.eqb c0) [q]) ((v ++ [c]) ++ [q])
                = (v ++ [c]) ++ [q]).
    { apply dropwhile_keep. destruct v as [|d v]; simpl in *.
      - rewrite orb_false_r. apply N.eqb_neq. congruence.
      - rewrite orb_false_r. apply N.eqb_neq. congruence. }
    rewrite E, !rev_app_distr. cbn [rev app dropwhile]. rewrite Q.
    rewrite (P c) by congruence. cbn [rev]. rewrite rev_involutive. reflexivity.
Qed.

Lemma split_first_at sep (a b : pystr) :
  ~ In sep a -> split_first sep (a ++ sep :: b) = (a, b).
Proof.
  induction a as [|c a IH]; simpl; intros H.
  - now rewrite N.eqb_refl.
  - destruct (N.eqb_spec c sep) as [->|_]; [destruct H; now left|].
    rewrite IH; [reflexivity|]. intros Hin. apply H. now right.
Qed.

Lemma contains_middle (a b : pystr) c : contains (a ++ c :: b) [c] = true.
Proof.
  induction a as [|x a IH]; simpl.
  - now rewrite N.eqb_refl.
  - rewrite IH. apply orb_true_r.
Qed.

(** X3.  A line [KEY="value"] (or with single quotes), with white space allowed
    after it, sets an unset [KEY] to [value] with the quotes removed and
    the inside of the quotes kept as it is. *)
Theorem dotenv_line_quoted environ (key value trailing : pystr) (q : char) :
  q = 34 \/ q = 39 ->
  solid key = true ->
  hd 0 key <> 35 ->
  ~ In 61 key ->
  putenv_accepts key = true ->
  putenv_accepts value = true ->
  unquoted value = true ->
  forallb isspace trailing = true ->
  environ !! key = None ->
  dotenv_line (key ++ py "=" ++ q :: value ++ q :: trailing) environ
  = Loaded (<[key := value]> environ).
Proof.
  intros Hq Hkey Hhash Heq Hpk Hpv Hunq Htrail Hnone.
  assert (Hqs : isspace q = false) by (destruct Hq as [-> | ->]; reflexivity).
  assert (Hstrip : strip (key ++ py "=" ++ q :: value ++ q :: trailing)
                   = key ++ 61 :: q :: value ++ [q]).
  { replace (key ++ py "=" ++ q :: value ++ q :: trailing)
      with (key ++ (61 :: q :: value) ++ q :: trailing)
      by reflexivity.
    rewrite strip_solid_app by exact Hkey. f_equal.
    rewrite rstrip_app_nonspace by exact Hqs.
    replace (rstrip trailing) with (@nil char).
    - simpl. reflexivity.
    - unfold rstrip. symmetry.
      assert (D : forall l : pystr, forallb isspace l = true -> dropwhile isspace l = []).
      { induction l as [|c l IH]; simpl; [reflexivity|].
        intros H. apply andb_true_iff in H as [-> H]. now apply IH. }
      rewrite D; [reflexivity|].
      rewrite forallb_forall in *. intros c Hc. apply Htrail. now apply in_rev. }
  unfold dotenv_line. rewrite Hstrip.
  assert (Hk : exists c k', key = c :: k').
  { destruct key as [|c k']; [discriminate Hkey|eauto]. }
  destruct Hk as (c & k' & Ek).
  assert (T : truthy (key ++ 61 :: q :: value ++ [q]) = true) by (rewrite Ek; reflexivity).
  assert (S : startswith (key ++ 61 :: q :: value ++ [q]) (py "#") = false).
  { rewrite Ek. simpl. rewrite Ek in Hhash. simpl in Hhash.
    apply andb_false_iff. left. now apply N.eqb_neq. }
  assert (C : contains (key ++ 61 :: q :: value ++ [q]) (py "=") = true)
    by apply contains_middle.
  rewrite T, S, C. cbn [negb orb].
  rewrite split_first_at by exact Heq.
  assert (Sk : strip key = key).
  { rewrite <- (app_nil_r key) at 1. rewrite strip_solid_app by exact Hkey.
    apply app_nil_r. }
  rewrite Sk.
  assert (Sv : strip (q :: value ++ [q]) = q :: value ++ [q]).
  { replace (q :: value ++ [q]) with ((q :: value ++ [q]) ++ []) at 1 by apply app_nil_r.
    rewrite strip_solid_app; [apply app_nil_r|].
    unfold solid. cbn [hd]. rewrite Hqs.
    change (q :: value ++ [q]) with ((q :: value) ++ [q]). rewrite last_last.
    now rewrite Hqs. }
  rewrite Sv.
  unfold unquoted in Hunq. apply andb_true_iff in Hunq as [U1 U2].
  apply negb_true_iff, orb_false_iff in U1 as [U1a U1b].
  apply negb_true_iff, orb_false_iff in U2 as [U2a U2b].
  apply N.eqb_neq in U1a, U1b, U2a, U2b.
  assert (V : strip_chars (py "'") (strip_chars DQUOTE (q :: value ++ [q])) = value).
  { destruct Hq as [-> | ->].
    - unfold DQUOTE. rewrite strip_chars_quoted by (congruence || lia).
      apply strip_chars_keep; simpl; rewrite orb_false_r; now apply N.eqb_neq.
    - rewrite (strip_chars_keep DQUOTE).
      + change (py "'") with [39]. apply strip_chars_quoted; congruence || lia.
      + reflexivity.
      + change (39 :: value ++ [39]) with ((39 :: value) ++ [39]).
        rewrite last_last. reflexivity. }
  rewrite V. rewrite Ek at 1. cbn [truthy andb].
  rewrite bool_decide_eq_true_2 by exact Hnone.
  now rewrite Hpk, Hpv.
Qed.

Lemma dotenv_line_quoted_witness :
  dotenv_line (OPENAI_API_KEY ++ py "=" ++ 34 :: py "sk 1" ++ 34 :: NL) ∅
  = Loaded (<[OPENAI_API_KEY := py "sk 1"]> ∅).
Proof.
  apply (dotenv_line_quoted ∅ OPENAI_API_KEY (py "sk 1") NL 34); try reflexivity.
  - now left.
  - discriminate.
  - intros H. vm_compute in H. repeat (destruct H as [H|H]; [discriminate H|]). exact H.
Defined.
